(** * mplcursors: the pick geometry, the fractional-index codec and the
      keyboard mover of [mplcursors/_pick_info.py]

    The embedding follows the Python module function by function.  numpy's
    float64 values are idealised as exact reals extended with one non-finite
    value: rounding and overflow are not modelled, and +-inf is not told
    apart from NaN (section [npfloat]). *)

From Stdlib Require Import Reals Lra ZArith Lia List String Bool.
Import ListNotations.

Set Implicit Arguments.

(* ------------------------------------------------------------------ *)
(** ** Numbers: Python/numpy floats *)

(** A float64 is either a (real) number or non-finite.  [NaN] stands for
    every non-finite value.  The only division by zero the pick code performs
    is 0/0 or NaN/0 (lemma [unit_vector_numerator_zero] below), which IEEE
    also maps to NaN; in [move] for images a division by a zero extent or a
    zero array dimension would give +-inf in IEEE and gives [NaN] here. *)
Inductive npfloat : Type :=
| Fin (r : R)
| NaN.

Definition lift2 (op : R -> R -> R) (a b : npfloat) : npfloat :=
  match a, b with
  | Fin u, Fin v => Fin (op u v)
  | _, _ => NaN
  end.

Definition fadd := lift2 Rplus.
Definition fsub := lift2 Rminus.
Definition fmul := lift2 Rmult.

Definition fdiv (a b : npfloat) : npfloat :=
  match a, b with
  | Fin u, Fin v => if Req_dec_T v 0 then NaN else Fin (u / v)
  | _, _ => NaN
  end.

(** [np.sqrt]: NaN on a negative argument. *)
Definition fsqrt (a : npfloat) : npfloat :=
  match a with
  | Fin u => if Rlt_dec u 0 then NaN else Fin (sqrt u)
  | NaN => NaN
  end.

(** [a < b] and [a == b]: every comparison with NaN is false. *)
Definition fltb (a b : npfloat) : bool :=
  match a, b with
  | Fin u, Fin v => if Rlt_dec u v then true else false
  | _, _ => false
  end.

Definition feqb (a b : npfloat) : bool :=
  match a, b with
  | Fin u, Fin v => if Req_dec_T u v then true else false
  | _, _ => false
  end.

(** Python's builtin [max(a, b)]: keeps [a] unless [b > a]. *)
Definition py_max (a b : npfloat) : npfloat :=
  if fltb a b then b else a.

(** [np.clip(a, lo, hi)] is [minimum(maximum(a, lo), hi)]; both propagate
    NaN. *)
Definition np_maximum (a b : npfloat) : npfloat :=
  match a, b with
  | Fin u, Fin v => Fin (Rmax u v)
  | _, _ => NaN
  end.

Definition np_minimum (a b : npfloat) : npfloat :=
  match a, b with
  | Fin u, Fin v => Fin (Rmin u v)
  | _, _ => NaN
  end.

Definition np_clip (a lo hi : npfloat) : npfloat :=
  np_minimum (np_maximum a lo) hi.

Definition of_Z (z : Z) : npfloat := Fin (IZR z).

Definition zero : npfloat := Fin 0.
Definition one : npfloat := Fin 1.
Definition two : npfloat := Fin 2.
Definition half : npfloat := Fin (1 / 2).

(** [np.floor] and [np.ceil] of a real, as integers. *)
Definition Rfloor (r : R) : Z := Int_part r.
Definition Rceil (r : R) : Z := (- Int_part (- r))%Z.

(** [.astype(int)] truncates toward zero.  The cast of a non-finite value is
    the int64 "indefinite" value on x86-64. *)
Definition Rtrunc (r : R) : Z :=
  if Rlt_dec r 0 then Rceil r else Rfloor r.

Definition astype_int (a : npfloat) : Z :=
  match a with
  | Fin r => Rtrunc r
  | NaN => (- 2 ^ 63)%Z
  end.

(** Floats that are numbers, and their order. *)
Definition finite (a : npfloat) : Prop := exists u, a = Fin u.

Definition fle (a b : npfloat) : Prop :=
  exists u v, a = Fin u /\ b = Fin v /\ (u <= v)%R.

Definition flt (a b : npfloat) : Prop :=
  exists u v, a = Fin u /\ b = Fin v /\ (u < v)%R.

(* ------------------------------------------------------------------ *)
(** ** Exceptions *)

Inductive exn : Type :=
| ValueError
| TypeError
| IndexError
| KeyError
| ZeroDivisionError.

Inductive result (A : Type) : Type :=
| Ok (a : A)
| Raise (e : exn).

Arguments Ok {A} a.
Arguments Raise {A} e.

Definition bind {A B : Type} (m : result A) (k : A -> result B) : result B :=
  match m with
  | Ok a => k a
  | Raise e => Raise e
  end.

Notation "x <- m ;; k" := (bind m (fun x => k))
  (at level 61, m at next level, right associativity).

(* ------------------------------------------------------------------ *)
(** ** class Index *)

Module Index.

Record t : Type := cls { int : Z; x : npfloat; y : npfloat }.

Definition floor (self : t) : Z := int self.

Definition ceil (self : t) : Z :=
  if feqb (py_max (x self) (y self)) zero then int self
  else (int self + 1)%Z.

(** [divmod(raw_index, 2)]: Python's floor division and modulo. *)
Definition divmod2 (raw_index : Z) : Z * Z :=
  ((raw_index / 2)%Z, (raw_index mod 2)%Z).

Definition pre_index (n_pts raw_index : Z) (frac : npfloat) : t :=
  let '(i, odd) := divmod2 raw_index in
  let '(x, y) := if (odd =? 0)%Z then (zero, frac) else (frac, one) in
  cls i x y.

Definition post_index (n_pts raw_index : Z) (frac : npfloat) : t :=
  let '(i, odd) := divmod2 raw_index in
  let '(x, y) := if (odd =? 0)%Z then (frac, zero) else (one, frac) in
  cls i x y.

(** Lines 88-91 of [mid_index]: the offset of a boundary half-segment is
    rescaled (an if/elif: segment 0 is tested first). *)
Definition mid_rescale (n_pts raw_index : Z) (frac : npfloat) : npfloat :=
  if (raw_index =? 0)%Z then fadd half (fdiv frac two)
  else if (raw_index =? n_pts - 2)%Z then fdiv frac two
  else frac.

(** Lines 92-103 of [mid_index]: the even/odd split. *)
Definition mid_split (raw_index : Z) (frac : npfloat) : t :=
  let '(quot, odd) := divmod2 raw_index in
  if (odd =? 0)%Z then
    if fltb frac half then cls (quot - 1) (fadd frac half) one
    else cls quot (fsub frac half) zero
  else cls quot half frac.

Definition mid_index (n_pts raw_index : Z) (frac : npfloat) : t :=
  mid_split raw_index (mid_rescale n_pts raw_index frac).

End Index.

(* ------------------------------------------------------------------ *)
(** ** numpy helpers *)

Definition point : Type := (npfloat * npfloat)%type.

Definition nan_point : point := (NaN, NaN).

(** [a - b] on rows. *)
Definition psub (a b : point) : point :=
  (fsub (fst a) (fst b), fsub (snd a) (snd b)).

(** [(v ** 2).sum(-1)] on a row. *)
Definition sumsq (v : point) : npfloat :=
  fadd (fmul (fst v) (fst v)) (fmul (snd v) (snd v)).

(** [(v * u).sum(-1)] on a row. *)
Definition rowdot (v u : point) : npfloat :=
  fadd (fmul (fst v) (fst u)) (fmul (snd v) (snd u)).

(** Scan for the first smallest finite entry; [best_i], [best] is the
    running minimum and [i] the position of the head of the list. *)
Fixpoint nanargmin_from (best_i : nat) (best : R) (i : nat)
         (l : list npfloat) : nat :=
  match l with
  | [] => best_i
  | Fin v :: t =>
      if Rlt_dec v best then nanargmin_from i v (S i) t
      else nanargmin_from best_i best (S i) t
  | NaN :: t => nanargmin_from best_i best (S i) t
  end.

Fixpoint nanargmin_skip (i : nat) (l : list npfloat) : result nat :=
  match l with
  | [] => Raise ValueError
  | NaN :: t => nanargmin_skip (S i) t
  | Fin v :: t => Ok (nanargmin_from i v (S i) t)
  end.

(** [np.nanargmin]: NaN entries are ignored; an empty or all-NaN array
    raises [ValueError]. *)
Definition nanargmin (l : list npfloat) : result nat := nanargmin_skip 0 l.

(** [ndarray.argmin]: the first NaN wins if there is one; an empty array
    raises [ValueError]. *)
Fixpoint argmin_from (best_i : nat) (best : R) (i : nat)
         (l : list npfloat) : nat :=
  match l with
  | [] => best_i
  | Fin v :: t =>
      if Rlt_dec v best then argmin_from i v (S i) t
      else argmin_from best_i best (S i) t
  | NaN :: _ => i
  end.

Definition argmin (l : list npfloat) : result nat :=
  match l with
  | [] => Raise ValueError
  | NaN :: _ => Ok 0%nat
  | Fin v :: t => Ok (argmin_from 0 v 1 t)
  end.

(** [a[idxs]] with an integer index array: [IndexError] out of range. *)
Fixpoint take (A : Type) (a : list A) (idxs : list nat) : result (list A) :=
  match idxs with
  | [] => Ok []
  | i :: rest =>
      match nth_error a i with
      | Some v => r <- take a rest ;; Ok (v :: r)
      | None => Raise IndexError
      end
  end.

(** [a % n] on numpy integers: floor modulo, and 0 for [n = 0]. *)
Definition np_mod (a n : Z) : Z :=
  if (n =? 0)%Z then 0%Z else (a mod n)%Z.

(* ------------------------------------------------------------------ *)
(** ** matplotlib.cbook step expansions

    [pts_to_prestep], [pts_to_midstep] and [pts_to_poststep] are
    matplotlib's; the pick code imports them. *)

Module cbook.

(** [(x0,y0), (x0,y1), (x1,y1), (x1,y2), ...]: 2N-1 points. *)
Fixpoint prestep_from (prev : point) (l : list point) : list point :=
  match l with
  | [] => []
  | p :: t => (fst prev, snd p) :: p :: prestep_from p t
  end.

Definition pts_to_prestep (l : list point) : list point :=
  match l with
  | [] => []
  | p :: t => p :: prestep_from p t
  end.

(** [(x0,y0), (x1,y0), (x1,y1), (x2,y1), ...]: 2N-1 points. *)
Fixpoint poststep_from (prev : point) (l : list point) : list point :=
  match l with
  | [] => []
  | p :: t => (fst p, snd prev) :: p :: poststep_from p t
  end.

Definition pts_to_poststep (l : list point) : list point :=
  match l with
  | [] => []
  | p :: t => p :: poststep_from p t
  end.

(** [(x0,y0), (m01,y0), (m01,y1), (m12,y1), ..., (xl,yl)]: 2N points,
    [m] the midpoint of two consecutive abscissas. *)
Fixpoint midstep_from (prev : point) (l : list point) : list point :=
  match l with
  | [] => [prev]
  | p :: t =>
      let m := fmul half (fadd (fst prev) (fst p)) in
      (m, snd prev) :: (m, snd p) :: midstep_from p t
  end.

Definition pts_to_midstep (l : list point) : list point :=
  match l with
  | [] => []
  | p :: t => p :: midstep_from p t
  end.

End cbook.

(* ------------------------------------------------------------------ *)
(** ** Host objects: events, transforms, artists *)

Record Event : Type := mkEvent
  { ev_x : R;            (* event.x, pixels *)
    ev_y : R;            (* event.y, pixels *)
    xdata : npfloat;     (* event.xdata *)
    ydata : npfloat }.   (* event.ydata *)

Record Transform : Type := mkTransform
  { transform : point -> point;
    is_affine : bool;
    (* transform_path(MPath(xys)).vertices *)
    transform_path : list point -> list point }.

Record Axes : Type := mkAxes
  { transData : point -> point;
    transData_inverted : point -> point }.

(** The values of [Line2D.drawStyles]. *)
Inductive drawstyle : Type :=
| draw_lines
| draw_steps_pre
| draw_steps_mid
| draw_steps_post.

Record Line2D : Type := mkLine2D
  { get_marker : option string;
    get_linestyle : option string;
    get_xydata : list point;
    get_drawstyle : drawstyle;
    get_transform : Transform;
    line_axes : Axes;
    pickradius : npfloat }.

Record PathCollection : Type := mkPathCollection
  { (* artist.contains(event): the hit flag and info["ind"] *)
    pc_contains : Event -> bool * list nat;
    (* len(artist.get_paths()) *)
    pc_paths : nat;
    get_offsets : list point;
    pc_axes : Axes }.

(** An image backed by a 2-D array, as [move] takes it ("(y, x) -> (x, y)");
    [im_exact] is [type(artist) == AxesImage]. *)
Record AxesImage : Type := mkAxesImage
  { im_contains : Event -> bool;
    im_exact : bool;
    get_extent : npfloat * npfloat * npfloat * npfloat;
    (* get_array().shape: (rows, columns) *)
    shape : Z * Z }.

Record Patch : Type := mkPatch
  { patch_contains : Event -> bool }.

Inductive Artist : Type :=
| ALine2D (l : Line2D)
| APathCollection (c : PathCollection)
| AAxesImage (im : AxesImage)
| APatch (p : Patch)
| AText
| AOther (class_name : string).

(* ------------------------------------------------------------------ *)
(** ** Selection *)

(** [target.index]: an integer (vertex pick), a float (direct-style line) or
    an [Index] object (step styles). *)
Inductive index_value : Type :=
| IntIndex (i : Z)
| FloatIndex (f : npfloat)
| ObjIndex (i : Index.t).

(** An [AttrArray] with its optional [index] attribute; a plain tuple
    [(xdata, ydata)] is a target without index. *)
Record Target : Type := AttrArray
  { coords : point;
    index : option index_value }.

Definition handle : Type := nat.

Record Selection : Type := mkSelection
  { artist : Artist;
    target : Target;
    dist : npfloat;
    annotation : option handle;
    extras : option (list handle) }.

(* ------------------------------------------------------------------ *)
(** ** compute_pick *)

(** [style not in ["None", "none", " ", "", None]]. *)
Definition style_eqb (a b : option string) : bool :=
  match a, b with
  | Some s, Some s' => String.eqb s s'
  | None, None => true
  | _, _ => false
  end.

Definition hidden_styles : list (option string) :=
  [Some "None"%string; Some "none"%string; Some " "%string;
   Some EmptyString; None].

Definition style_visible (s : option string) : bool :=
  negb (existsb (style_eqb s) hidden_styles).

(** The event position as a row of floats. *)
Definition event_xy (event : Event) : point :=
  (Fin (ev_x event), Fin (ev_y event)).

(** Lines 119-127: the closest vertex, when markers are visible. *)
Definition marker_candidate (l : Line2D) (event : Event)
  : result Selection :=
  let xy := event_xy event in
  let artist_data_xys := get_xydata l in
  let artist_xys := map (transform (get_transform l)) artist_data_xys in
  let d2s := map (fun p => sumsq (psub xy p)) artist_xys in
  argmin <- nanargmin d2s ;;
  let dmin := fsqrt (nth argmin d2s NaN) in
  let target :=
    AttrArray (nth argmin (get_xydata l) nan_point)
              (Some (IntIndex (Z.of_nat argmin))) in
  Ok (mkSelection (ALine2D l) target dmin None None).

(** One row of the vectorised lines 144-153: the segment from [p0] to [p1]
    and the event position [xy]. *)
Record Segment : Type := mkSegment
  { seg_us : point;      (* unit vector *)
    seg_ds : npfloat;    (* length *)
    seg_dot : npfloat;   (* clipped dot product *)
    seg_projs : point;   (* projection *)
    seg_d2s : npfloat }. (* squared distance to the projection *)

Definition segment (xy p0 p1 : point) : Segment :=
  let us := psub p1 p0 in
  let ds := fsqrt (sumsq us) in
  let us := (fdiv (fst us) ds, fdiv (snd us) ds) in
  let vs := psub xy p0 in
  let dot := np_clip (rowdot vs us) zero ds in
  let projs := (fadd (fst p0) (fmul dot (fst us)),
                fadd (snd p0) (fmul dot (snd us))) in
  let d2s := sumsq (psub xy projs) in
  mkSegment us ds dot projs d2s.

(** The rows [artist_xys[:-1]] paired with [artist_xys[1:]]. *)
Definition consecutive (artist_xys : list point) : list (point * point) :=
  combine (removelast artist_xys) (tl artist_xys).

Definition segments (xy : point) (artist_xys : list point) : list Segment :=
  map (fun pq => segment xy (fst pq) (snd pq)) (consecutive artist_xys).

Definition nan_segment : Segment :=
  mkSegment nan_point NaN NaN nan_point NaN.

Definition drawstyle_conv (d : drawstyle) (xys : list point) : list point :=
  match d with
  | draw_lines => xys
  | draw_steps_pre => cbook.pts_to_prestep xys
  | draw_steps_mid => cbook.pts_to_midstep xys
  | draw_steps_post => cbook.pts_to_poststep xys
  end.

(** Lines 159-164: the style's index encoder. *)
Definition encode_index (d : drawstyle) (n_pts raw_index : Z)
           (frac : npfloat) : index_value :=
  match d with
  | draw_lines => FloatIndex (fadd (of_Z raw_index) frac)
  | draw_steps_pre => ObjIndex (Index.pre_index n_pts raw_index frac)
  | draw_steps_mid => ObjIndex (Index.mid_index n_pts raw_index frac)
  | draw_steps_post => ObjIndex (Index.post_index n_pts raw_index frac)
  end.

(** Lines 131-142: the polyline in screen coordinates, after the step
    expansion of the draw style. *)
Definition line_artist_xys (l : Line2D) : list point :=
  let drawstyle := get_drawstyle l in
  let artist_data_xys := drawstyle_conv drawstyle (get_xydata l) in
  let transform_ := get_transform l in
  if is_affine transform_ then map (transform transform_) artist_data_xys
  else transform_path transform_ artist_data_xys.

(** Lines 131-165: the closest projection, when lines are visible. *)
Definition line_candidate (l : Line2D) (event : Event) : result Selection :=
  let xy := event_xy event in
  let artist_xys := line_artist_xys l in
  let segs := segments xy artist_xys in
  let d2s := map seg_d2s segs in
  argmin <- nanargmin d2s ;;
  let dmin := fsqrt (nth argmin d2s NaN) in
  let s := nth argmin segs nan_segment in
  let target_xy := transData_inverted (line_axes l) (seg_projs s) in
  let target_index :=
    if is_affine (get_transform l) then
      Some (encode_index (get_drawstyle l)
                         (Z.of_nat (List.length artist_xys))
                         (Z.of_nat argmin) (fdiv (seg_dot s) (seg_ds s)))
    else None in
  Ok (mkSelection (ALine2D l) (AttrArray target_xy target_index)
                  dmin None None).

(** Lines 116-165: the list [sels]. *)
Definition candidates (l : Line2D) (event : Event)
  : result (list Selection) :=
  sels1 <- (if style_visible (get_marker l)
            then s <- marker_candidate l event ;; Ok [s]
            else Ok []) ;;
  sels2 <- (if style_visible (get_linestyle l)
               && (1 <? List.length (get_xydata l))%nat
            then s <- line_candidate l event ;; Ok [s]
            else Ok []) ;;
  Ok (sels1 ++ sels2).

(** Python's [min(sels, key=key, default=None)]: the first smallest item. *)
Fixpoint py_min_from (A : Type) (key : A -> npfloat) (cur : A)
         (rest : list A) : A :=
  match rest with
  | [] => cur
  | s :: r => py_min_from key (if fltb (key s) (key cur) then s else cur) r
  end.

Definition py_min (A : Type) (key : A -> npfloat) (sels : list A)
  : option A :=
  match sels with
  | [] => None
  | s :: r => Some (py_min_from key s r)
  end.

(** Line 167; a [Selection] is a 5-tuple, hence truthy. *)
Definition accept (radius : npfloat) (sel : option Selection)
  : option Selection :=
  match sel with
  | Some s => if fltb (dist s) radius then Some s else None
  | None => None
  end.

Definition compute_pick_Line2D (l : Line2D) (event : Event)
  : result (option Selection) :=
  sels <- candidates l event ;;
  let sel := py_min dist sels in
  Ok (accept (pickradius l) sel).

(** The pick of a [PathCollection]: the diagnostics emitted and the
    value. *)
Definition scatter_warning : string :=
  "Only PathCollections created through `plt.scatter` are supported.".

Definition compute_pick_PathCollection (c : PathCollection) (event : Event)
  : list string * result (option Selection) :=
  let '(contains, ind) := pc_contains c event in
  if negb contains then ([], Ok None)
  else if negb (pc_paths c =? 1)%nat then ([scatter_warning], Ok None)
  else
    ([],
     let ax := pc_axes c in
     let idxs := ind in
     offsets <- take (get_offsets c) idxs ;;
     let d2 := map (fun p => sumsq (psub (transData ax p)
                                         (event_xy event))) offsets in
     argmin <- argmin d2 ;;
     let target := AttrArray (nth argmin offsets nan_point)
                             (Some (IntIndex (Z.of_nat (nth argmin idxs 0%nat)))) in
     Ok (Some (mkSelection (APathCollection c) target
                           (fsqrt (nth argmin d2 NaN)) None None))).

(** The pick of an [AxesImage] or a [Patch]. *)
Definition compute_pick_filled (a : Artist) (contains : bool)
           (event : Event) : result (option Selection) :=
  if negb contains then Ok None
  else Ok (Some (mkSelection a (AttrArray (xdata event, ydata event) None)
                             zero None None)).

Definition missing_warning (class_name : string) : string :=
  ("Support for " ++ class_name ++ " is missing.")%string.

(** The single-dispatch function: the diagnostics emitted through
    [warnings.warn] by the module (numpy's own floating-point warnings are
    not part of them) and the value. *)
Definition compute_pick (a : Artist) (event : Event)
  : list string * result (option Selection) :=
  match a with
  | ALine2D l => ([], compute_pick_Line2D l event)
  | APathCollection c => compute_pick_PathCollection c event
  | AAxesImage im => ([], compute_pick_filled a (im_contains im event) event)
  | APatch p => ([], compute_pick_filled a (patch_contains p event) event)
  | AText => ([], Ok None)
  | AOther class_name => ([missing_warning class_name], Ok None)
  end.

(* ------------------------------------------------------------------ *)
(** ** move *)

(** [np.ceil(index)] and [np.floor(index)] followed by [int(...)]: numpy
    calls the [ceil]/[floor] method of an [Index] object; [int(nan)]
    raises. *)
Definition index_ceil (i : index_value) : result Z :=
  match i with
  | IntIndex z => Ok z
  | FloatIndex (Fin r) => Ok (Rceil r)
  | FloatIndex NaN => Raise ValueError
  | ObjIndex o => Ok (Index.ceil o)
  end.

Definition index_floor (i : index_value) : result Z :=
  match i with
  | IntIndex z => Ok z
  | FloatIndex (Fin r) => Ok (Rfloor r)
  | FloatIndex NaN => Raise ValueError
  | ObjIndex o => Ok (Index.floor o)
  end.

(** Lines 265-267. *)
Definition new_index (key : string) (i : index_value) : result index_value :=
  if String.eqb key "left" then
    c <- index_ceil i ;; Ok (IntIndex (c - 1))
  else if String.eqb key "right" then
    f <- index_floor i ;; Ok (IntIndex (f + 1))
  else Ok i.

(** [artist_xys[new_idx % len(artist_xys)]]: a float is not a valid array
    index (an [IndexError] since numpy 1.12), and [Index] has no
    [__mod__]. *)
Definition wrapped_vertex (artist_xys : list point) (new_idx : index_value)
  : result point :=
  match new_idx with
  | IntIndex z =>
      let n := Z.of_nat (List.length artist_xys) in
      if (n =? 0)%Z then Raise ZeroDivisionError
      else Ok (nth (Z.to_nat (z mod n)) artist_xys nan_point)
  | FloatIndex _ => Raise IndexError
  | ObjIndex _ => Raise TypeError
  end.

Definition move_Line2D (l : Line2D) (sel : Selection) (key : string)
  : result Selection :=
  match index (target sel) with
  | None => Ok sel
  | Some i =>
      new_idx <- new_index key i ;;
      let artist_xys := get_xydata l in
      xy <- wrapped_vertex artist_xys new_idx ;;
      let target := AttrArray xy (Some new_idx) in
      Ok (mkSelection (artist sel) target zero
                      (annotation sel) (extras sel))
  end.

(** Line 284: the step of each arrow key; any other key is a [KeyError]. *)
Definition key_step (key : string) : result (Z * Z) :=
  if String.eqb key "left" then Ok ((-1)%Z, 0%Z)
  else if String.eqb key "right" then Ok (1%Z, 0%Z)
  else if String.eqb key "up" then Ok (0%Z, 1%Z)
  else if String.eqb key "down" then Ok (0%Z, (-1)%Z)
  else Raise KeyError.

(** Line 282 on one axis. *)
Definition to_cell (t low high : npfloat) (n : Z) : Z :=
  astype_int (fmul (fdiv (fsub t low) (fsub high low)) (of_Z n)).

(** Line 286 on one axis. *)
Definition cell_center (i : Z) (low high : npfloat) (n : Z) : npfloat :=
  fadd (fmul (fdiv (fadd (of_Z i) half) (of_Z n)) (fsub high low)) low.

Definition move_AxesImage (im : AxesImage) (sel : Selection) (key : string)
  : result Selection :=
  if negb (im_exact im) then Ok sel
  else
    let '(x0, x1, y0, y1) := get_extent im in
    let low := (x0, y0) in
    let high := (x1, y1) in
    let ns := (snd (shape im), fst (shape im)) in
    let idxs := (to_cell (fst (coords (target sel))) (fst low) (fst high)
                         (fst ns),
                 to_cell (snd (coords (target sel))) (snd low) (snd high)
                         (snd ns)) in
    step <- key_step key ;;
    let idxs := ((fst idxs + fst step)%Z, (snd idxs + snd step)%Z) in
    let idxs := (np_mod (fst idxs) (fst ns), np_mod (snd idxs) (snd ns)) in
    let target :=
      (cell_center (fst idxs) (fst low) (fst high) (fst ns),
       cell_center (snd idxs) (snd low) (snd high) (snd ns)) in
    Ok (mkSelection (artist sel) (AttrArray target None) (dist sel)
                    (annotation sel) (extras sel)).

(** The single-dispatch function, keyed by the class of [sel.artist]. *)
Definition move (sel : Selection) (key : string) : result Selection :=
  match artist sel with
  | ALine2D l => move_Line2D l sel key
  | AAxesImage im => move_AxesImage im sel key
  | _ => Ok sel
  end.

(* ------------------------------------------------------------------ *)
(** ** get_ann_text *)

Definition space : Ascii.ascii := Ascii.ascii_of_nat 32.
Definition comma : Ascii.ascii := Ascii.ascii_of_nat 44.
Definition underscore : Ascii.ascii := Ascii.ascii_of_nat 95.
Definition newline : Ascii.ascii := Ascii.ascii_of_nat 10.

(** The first character of the pattern ["[ ,] +"]. *)
Definition is_sep (c : Ascii.ascii) : bool :=
  Ascii.eqb c space || Ascii.eqb c comma.

Definition starts_with_space (s : string) : bool :=
  match s with
  | String c _ => Ascii.eqb c space
  | EmptyString => false
  end.

(** [re.sub("[ ,] +", "\n", s)], scanning from the left: a space or a comma
    followed by a space starts a match, which extends over all the spaces
    that follow and is replaced by one newline; [skipping] holds inside a
    match. *)
Fixpoint sub_padding (skipping : bool) (s : string) : string :=
  match s with
  | EmptyString => EmptyString
  | String c t =>
      if skipping && Ascii.eqb c space then sub_padding true t
      else if is_sep c && starts_with_space t
           then String newline (sub_padding true t)
           else String c (sub_padding false t)
  end.

Definition re_sub_padding (s : string) : string := sub_padding false s.

(** [str.isspace] on the code points below 256. *)
Definition is_space (c : Ascii.ascii) : bool :=
  let n := Ascii.nat_of_ascii c in
  ((9 <=? n) && (n <=? 13) || (28 <=? n) && (n <=? 32)
   || (n =? 133) || (n =? 160))%nat.

Fixpoint lstrip (s : string) : string :=
  match s with
  | EmptyString => EmptyString
  | String c t => if is_space c then lstrip t else s
  end.

Fixpoint rstrip (s : string) : string :=
  match s with
  | EmptyString => EmptyString
  | String c t =>
      match rstrip t with
      | EmptyString => if is_space c then EmptyString else String c EmptyString
      | r => String c r
      end
  end.

(** [s.strip()]. *)
Definition strip (s : string) : string := rstrip (lstrip s).

(** [re.match("[^_]", label)]: a first character that is not an
    underscore. *)
Definition re_match_public (label : string) : bool :=
  match label with
  | String c _ => negb (Ascii.eqb c underscore)
  | EmptyString => false
  end.

(** What the text generator asks of the host: the label of an artist, the
    axes' [format_coord], and for an image
    [format_cursor_data(get_cursor_data(event))] at a data position. *)
Record TextHost : Type := mkTextHost
  { get_label : Artist -> option string;
    format_coord : Artist -> npfloat -> npfloat -> string;
    cursor_data_text : Artist -> npfloat -> npfloat -> string }.

(** The coordinates of the target, one field per line. *)
Definition coord_text (h : TextHost) (sel : Selection) : string :=
  let '(x, y) := coords (target sel) in
  strip (re_sub_padding (format_coord h (artist sel) x y)).

(** Lines 218-230: lines, point collections and patches. *)
Definition get_ann_text_labelled (h : TextHost) (sel : Selection) : string :=
  let label := match get_label h (artist sel) with
               | Some l => l
               | None => EmptyString
               end in
  let text := coord_text h sel in
  if re_match_public label
  then (label ++ String newline text)%string
  else text.

(** Lines 233-244: images. *)
Definition get_ann_text_AxesImage (h : TextHost) (sel : Selection) : string :=
  let '(x, y) := coords (target sel) in
  let text := coord_text h sel in
  (text ++ String newline ("[" ++ cursor_data_text h (artist sel) x y ++ "]"))
    %string.

Definition missing_text_warning (class_name : string) : string :=
  ("Support for " ++ class_name ++ " is missing")%string.

(** The single-dispatch function: the diagnostics emitted and the text. *)
Definition get_ann_text (h : TextHost) (sel : Selection)
  : list string * string :=
  match artist sel with
  | ALine2D _ | APathCollection _ | APatch _ =>
      ([], get_ann_text_labelled h sel)
  | AAxesImage _ => ([], get_ann_text_AxesImage h sel)
  | AText =>
      ([missing_text_warning "<class 'matplotlib.text.Text'>"], EmptyString)
  | AOther class_name => ([missing_text_warning class_name], EmptyString)
  end.

(* ------------------------------------------------------------------ *)
(** ** Statement vocabulary *)

(** Whether the pattern ["[ ,] +"] matches somewhere in [s]: a space or a
    comma followed by a space. *)
Fixpoint has_padding (s : string) : bool :=
  match s with
  | EmptyString => false
  | String c t => is_sep c && starts_with_space t || has_padding t
  end.

Definition starts_with_whitespace (s : string) : bool :=
  match s with
  | String c _ => is_space c
  | EmptyString => false
  end.

Fixpoint ends_with_whitespace (s : string) : bool :=
  match s with
  | EmptyString => false
  | String c EmptyString => is_space c
  | String _ t => ends_with_whitespace t
  end.

(** A coordinate of a fractional index that is a number of [[0, 1]]. *)
Definition unit_coord (f : npfloat) : Prop :=
  exists r, f = Fin r /\ (0 <= r <= 1)%R.

(** [k] successive key presses. *)
Fixpoint move_times (k : nat) (key : string) (sel : Selection)
  : result Selection :=
  match k with
  | O => Ok sel
  | S k' => s <- move sel key ;; move_times k' key s
  end.

(** The Euclidean distance between two points of the plane. *)
Definition euclid (x y a b : R) : R :=
  sqrt ((x - a) * (x - a) + (y - b) * (y - b)).


(* ------------------------------------------------------------------ *)
(** ** Sample artists and events *)

Definition identity_transform : Transform :=
  mkTransform (fun p => p) true (fun xys => xys).

Definition identity_axes : Axes :=
  mkAxes (fun p => p) (fun p => p).

Definition origin_event : Event :=
  mkEvent 0%R 0%R (Fin 0%R) (Fin 0%R).

Definition pt (a b : R) : point := (Fin a, Fin b).

Definition solid : option string := Some "-"%string.
Definition circle : option string := Some "o"%string.

(** [plt.plot([], [], "o-")]. *)
Definition empty_line : Line2D :=
  mkLine2D circle solid [] draw_lines identity_transform identity_axes
           (Fin 5%R).

(** [plt.plot([nan], [nan], "o-")]. *)
Definition nan_line : Line2D :=
  mkLine2D circle solid [nan_point] draw_lines identity_transform
           identity_axes (Fin 5%R).

(** [plt.plot([1, 1], [2, 2], "-")]: one segment of length zero. *)
Definition doubled_point_line : Line2D :=
  mkLine2D None solid [pt 1 2; pt 1 2] draw_lines identity_transform
           identity_axes (Fin 5%R).

(** [plt.plot([3], [4], "o")]: one marker at distance 5 of the origin. *)
Definition single_marker (radius : R) : Line2D :=
  mkLine2D circle None [pt 3 4] draw_lines identity_transform identity_axes
           (Fin radius).

Definition single_marker_selection (radius : R) : Selection :=
  mkSelection (ALine2D (single_marker radius))
              (AttrArray (pt 3 4) (Some (IntIndex 0)))
              (fsqrt (sumsq (psub (event_xy origin_event) (pt 3 4))))
              None None.

(** [plt.step(range(5), range(5), where="pre")]. *)
Definition five_points : list point :=
  [pt 0 0; pt 1 1; pt 2 2; pt 3 3; pt 4 4].

Definition step_line : Line2D :=
  mkLine2D None solid five_points draw_steps_pre identity_transform
           identity_axes (Fin 5%R).

Definition straight_line : Line2D :=
  mkLine2D None solid five_points draw_lines identity_transform
           identity_axes (Fin 5%R).

(** A selection on [l] at the point [xy] of index [i], picked at distance
    1. *)
Definition selection_at (l : Line2D) (xy : point) (i : index_value)
  : Selection :=
  mkSelection (ALine2D l) (AttrArray xy (Some i)) (Fin 1%R) None None.

(** A 2 x 3 image over the extent [(0, 3, 0, 2)]. *)
Definition small_image : AxesImage :=
  mkAxesImage (fun _ => true) true (Fin 0%R, Fin 3%R, Fin 0%R, Fin 2%R)
              (2%Z, 3%Z).

Definition image_selection (i j : Z) : Selection :=
  mkSelection (AAxesImage small_image)
              (AttrArray (cell_center i (Fin 0%R) (Fin 3%R) 3,
                          cell_center j (Fin 0%R) (Fin 2%R) 2) None)
              (Fin 2%R) (Some 7%nat) (Some [8%nat]).

(** A collection with two paths that the event misses. *)
Definition missed_tri_collection : PathCollection :=
  mkPathCollection (fun _ => (false, [])) 2 [] identity_axes.

Definition hit_patch : Patch := mkPatch (fun _ => true).

(** A polar-like transform: not affine; it maps points as the identity. *)
Definition curved_transform : Transform :=
  mkTransform (fun p => p) false (fun xys => xys).

(** [plt.plot([0, 3], [0, 4], "-")] under the curved transform. *)
Definition curved_line : Line2D :=
  mkLine2D None solid [pt 0 0; pt 3 4] draw_lines curved_transform
           identity_axes (Fin 5%R).


(** An image of a subclass such as [NonUniformImage]. *)
Definition irregular_image : AxesImage :=
  mkAxesImage (fun _ => true) false (Fin 0%R, Fin 3%R, Fin 0%R, Fin 2%R)
              (2%Z, 3%Z).

Definition irregular_selection : Selection :=
  mkSelection (AAxesImage irregular_image)
              (AttrArray (pt 1 1) None) (Fin 0%R) None None.

(** [line.set_data([], [])] after a pick on vertex 2. *)
Definition emptied_line_selection : Selection :=
  mkSelection (ALine2D empty_line)
              (AttrArray (pt 2 2) (Some (IntIndex 2))) (Fin 0%R) None None.




(** A click on the small image at the data position [(2.9, 0.2)]. *)
Definition image_click : Event :=
  mkEvent 290%R 20%R (Fin (29 / 10)%R) (Fin (2 / 10)%R).


(** [plt.plot([3, 0], [4, 1], "o")]: two markers, the second one nearer to
    the origin. *)
Definition two_markers : Line2D :=
  mkLine2D circle None [pt 3 4; pt 0 1] draw_lines identity_transform
           identity_axes (Fin 5%R).


(** [plt.plot([0, 3, 6], [0, 4, 0], "-")]. *)
Definition roof_line : Line2D :=
  mkLine2D None solid [pt 0 0; pt 3 4; pt 6 0] draw_lines identity_transform
           identity_axes (Fin 5%R).


(** [plt.plot([0, 3, 6], [0, 4, 0], "o-")]. *)
Definition roof_markers_line : Line2D :=
  mkLine2D circle solid [pt 0 0; pt 3 4; pt 6 0] draw_lines
           identity_transform identity_axes (Fin 5%R).


(** [plt.scatter([3, 0, 9], [4, 1, 9])], the event hitting the first two
    points. *)
Definition scatter_hit : PathCollection :=
  mkPathCollection (fun _ => (true, [0%nat; 1%nat])) 1
                   [pt 3 4; pt 0 1; pt 9 9] identity_axes.


(** A host that formats coordinates as matplotlib does, with padded
    fields, and labels every artist ["_line0"]. *)
Definition padded_host : TextHost :=
  mkTextHost (fun _ => Some "_line0"%string)
             (fun _ _ _ => "x=1.5      y=2.25    "%string)
             (fun _ _ _ => "0.5"%string).


(* ================================================================== *)
(** * Properties *)

Local Open Scope R_scope.

(** ** Float comparisons and arithmetic on finite values *)

Lemma fltb_Fin_true (u v : R) : u < v -> fltb (Fin u) (Fin v) = true.
Proof.
  intros H. unfold fltb. destruct (Rlt_dec u v); [reflexivity | contradiction].
Qed.

Lemma fltb_Fin_false (u v : R) : v <= u -> fltb (Fin u) (Fin v) = false.
Proof.
  intros H. unfold fltb. destruct (Rlt_dec u v); [lra | reflexivity].
Qed.

Lemma fltb_true_inv (a b : npfloat) :
  fltb a b = true -> exists u v, a = Fin u /\ b = Fin v /\ u < v.
Proof.
  destruct a as [u|], b as [v|]; simpl; try discriminate.
  destruct (Rlt_dec u v); [|discriminate].
  intros _. exists u, v. auto.
Qed.

Lemma feqb_Fin_true (u v : R) : u = v -> feqb (Fin u) (Fin v) = true.
Proof.
  intros H. unfold feqb. destruct (Req_dec_T u v); [reflexivity | contradiction].
Qed.

Lemma feqb_Fin_false (u v : R) : u <> v -> feqb (Fin u) (Fin v) = false.
Proof.
  intros H. unfold feqb. destruct (Req_dec_T u v); [contradiction | reflexivity].
Qed.

Lemma fdiv_Fin (u v : R) : v <> 0 -> fdiv (Fin u) (Fin v) = Fin (u / v).
Proof.
  intros H. unfold fdiv. destruct (Req_dec_T v 0); [contradiction | reflexivity].
Qed.

Lemma fdiv_zero_r (a : npfloat) : fdiv a (Fin 0) = NaN.
Proof.
  destruct a as [u|]; simpl; [|reflexivity].
  destruct (Req_dec_T 0 0); [reflexivity | lra].
Qed.

Lemma fsqrt_Fin (u : R) : 0 <= u -> fsqrt (Fin u) = Fin (sqrt u).
Proof.
  intros H. unfold fsqrt. destruct (Rlt_dec u 0); [lra | reflexivity].
Qed.

Lemma Fin_inj (u v : R) : Fin u = Fin v -> u = v.
Proof. intros H. injection H. auto. Qed.

(** ** The fractional-index codec *)

Lemma divmod2_spec (raw_index : Z) :
  (raw_index = 2 * fst (Index.divmod2 raw_index)
               + snd (Index.divmod2 raw_index)
   /\ 0 <= snd (Index.divmod2 raw_index) < 2)%Z.
Proof.
  unfold Index.divmod2; cbn [fst snd]. split.
  - apply Z.div_mod. lia.
  - apply Z.mod_pos_bound. lia.
Qed.

Lemma mid_rescale_first (n_pts : Z) (r : R) :
  Index.mid_rescale n_pts 0 (Fin r) = Fin (1 / 2 + r / 2).
Proof.
  unfold Index.mid_rescale. rewrite Z.eqb_refl.
  unfold two, half. rewrite fdiv_Fin by lra. reflexivity.
Qed.

Lemma mid_rescale_last (n_pts raw_index : Z) (r : R) :
  raw_index <> 0%Z -> raw_index = (n_pts - 2)%Z ->
  Index.mid_rescale n_pts raw_index (Fin r) = Fin (r / 2).
Proof.
  intros H0 Hl. unfold Index.mid_rescale.
  destruct (Z.eqb_spec raw_index 0); [contradiction|].
  destruct (Z.eqb_spec raw_index (n_pts - 2)); [|contradiction].
  unfold two. apply fdiv_Fin. lra.
Qed.

Lemma mid_rescale_inner (n_pts raw_index : Z) (frac : npfloat) :
  raw_index <> 0%Z -> raw_index <> (n_pts - 2)%Z ->
  Index.mid_rescale n_pts raw_index frac = frac.
Proof.
  intros H0 Hl. unfold Index.mid_rescale.
  destruct (Z.eqb_spec raw_index 0); [contradiction|].
  destruct (Z.eqb_spec raw_index (n_pts - 2)); [contradiction|].
  reflexivity.
Qed.

(** The floor of a split is the quotient, or one less on the first half of
    an even segment. *)
Lemma mid_split_floor (raw_index : Z) (r : R) :
  Index.floor (Index.mid_split raw_index (Fin r)) =
  if ((raw_index mod 2 =? 0)%Z && (if Rlt_dec r (1 / 2) then true else false))%bool
  then (raw_index / 2 - 1)%Z else (raw_index / 2)%Z.
Proof.
  unfold Index.mid_split, Index.divmod2, half, fltb.
  destruct (raw_index mod 2 =? 0)%Z; simpl; [|reflexivity].
  destruct (Rlt_dec r (1 / 2)); reflexivity.
Qed.

(** The floor of a step-mid index is a vertex index of the [n_pts / 2]
    data points. *)
Lemma mid_index_floor_bounds (n_pts raw_index : Z) (r : R) :
  (2 <= n_pts)%Z -> (0 <= raw_index <= n_pts - 2)%Z -> 0 <= r <= 1 ->
  (0 <= Index.floor (Index.mid_index n_pts raw_index (Fin r)) < n_pts / 2)%Z.
Proof.
  intros Hn Hraw Hr. unfold Index.mid_index.
  assert (Hq : (raw_index / 2 < n_pts / 2)%Z).
  { assert (raw_index / 2 <= (n_pts - 2) / 2)%Z
      by (apply Z.div_le_mono; lia).
    replace (n_pts - 2)%Z with (n_pts + (-1) * 2)%Z in H by lia.
    rewrite Z.div_add in H by lia. lia. }
  assert (Hq0 : (0 <= raw_index / 2)%Z) by (apply Z.div_pos; lia).
  assert (Hdm : (raw_index = 2 * (raw_index / 2) + raw_index mod 2)%Z)
    by (apply Z.div_mod; lia).
  destruct (Z.eq_dec raw_index 0) as [->|H0].
  - rewrite mid_rescale_first, mid_split_floor. simpl.
    destruct (Rlt_dec (1 / 2 + r / 2) (1 / 2)); [lra|].
    change (0 / 2)%Z with 0%Z. split; [lia|].
    apply Z.div_str_pos. lia.
  - destruct (Z.eq_dec raw_index (n_pts - 2)) as [Hl|Hl].
    + rewrite mid_rescale_last, mid_split_floor by assumption.
      destruct (raw_index mod 2 =? 0)%Z eqn:Hodd; simpl; [|lia].
      destruct (Rlt_dec (r / 2) (1 / 2)); [|lia].
      apply Z.eqb_eq in Hodd. lia.
    + rewrite mid_rescale_inner, mid_split_floor by assumption.
      destruct (raw_index mod 2 =? 0)%Z eqn:Hodd; simpl; [|lia].
      destruct (Rlt_dec r (1 / 2)); [|lia].
      apply Z.eqb_eq in Hodd. lia.
Qed.

(** C2, as the code has it: segment 0 is rescaled to [.5 + frac/2]; the last
    segment [n_pts - 2] is rescaled to [frac/2] when it is not segment 0 as
    well; the rescaling precedes the even/odd split; the floor of the
    resulting index is a vertex index of the [n_pts / 2] data points; and
    segment 0 at offset 0.5 has floor 0. *)
Theorem mid_index_boundaries (n_pts raw_index : Z) (r : R) :
  (2 <= n_pts)%Z -> (0 <= raw_index <= n_pts - 2)%Z -> 0 <= r <= 1 ->
  (raw_index = 0%Z ->
   Index.mid_rescale n_pts raw_index (Fin r) = Fin (1 / 2 + r / 2))
  /\ (raw_index = (n_pts - 2)%Z -> raw_index <> 0%Z ->
      Index.mid_rescale n_pts raw_index (Fin r) = Fin (r / 2))
  /\ Index.mid_index n_pts raw_index (Fin r) =
     Index.mid_split raw_index (Index.mid_rescale n_pts raw_index (Fin r))
  /\ (0 <= Index.floor (Index.mid_index n_pts raw_index (Fin r))
      < n_pts / 2)%Z
  /\ Index.floor (Index.mid_index n_pts 0 (Fin (1 / 2))) = 0%Z.
Proof.
  intros Hn Hraw Hr.
  split; [intros ->; apply mid_rescale_first|].
  split; [intros Hl H0; apply mid_rescale_last; assumption|].
  split; [reflexivity|].
  split; [apply mid_index_floor_bounds; assumption|].
  pose proof (@mid_index_floor_bounds 2 0 (1 / 2)) as H.
  unfold Index.mid_index in *.
  rewrite mid_rescale_first, mid_split_floor in *. simpl in *.
  destruct (Rlt_dec (1 / 2 + 1 / 2 / 2) (1 / 2)); [lra|]. reflexivity.
Qed.

Lemma mid_index_boundaries_witness :
  (0 <= Index.floor (Index.mid_index 10 8 (Fin 1)) < 10 / 2)%Z.
Proof.
  apply (mid_index_boundaries (n_pts := 10) (raw_index := 8) (r := 1));
    [lia | lia | lra].
Defined.

(** C2 as worded fails where the first segment is also the last one
    ([n_pts = 2]): the offset is rescaled to [.5 + frac/2], not to
    [frac/2], and the two give different indices. *)
Lemma mid_index_single_segment_not_halved :
  (2 <= 2)%Z /\ 0%Z = (2 - 2)%Z /\ 0 <= 1 / 2 <= 1
  /\ Index.mid_rescale 2 0 (Fin (1 / 2)) = Fin (3 / 4)
  /\ Index.mid_rescale 2 0 (Fin (1 / 2)) <> fdiv (Fin (1 / 2)) two
  /\ Index.floor (Index.mid_index 2 0 (Fin (1 / 2))) = 0%Z
  /\ Index.floor (Index.mid_split 0 (fdiv (Fin (1 / 2)) two)) = (-1)%Z.
Proof.
  assert (E : Index.mid_rescale 2 0 (Fin (1 / 2)) = Fin (3 / 4)).
  { rewrite mid_rescale_first. f_equal. lra. }
  assert (D : fdiv (Fin (1 / 2)) two = Fin (1 / 4)).
  { unfold two. rewrite fdiv_Fin by lra. f_equal. lra. }
  repeat split; try lia; try lra.
  - exact E.
  - rewrite E, D. intros H. apply Fin_inj in H. lra.
  - unfold Index.mid_index. rewrite E, mid_split_floor. simpl.
    destruct (Rlt_dec (3 / 4) (1 / 2)); [lra | reflexivity].
  - rewrite D, mid_split_floor. simpl.
    destruct (Rlt_dec (1 / 4) (1 / 2)); [reflexivity | lra].
Qed.

(** C3, as the code has it: the raw segment index splits by [divmod] into a
    vertex index and a phase; on an even phase the offset is stored on the
    y-axis with x at 0, on an odd phase it is stored on the x-axis with y
    anchored at 1. *)
Theorem pre_index_phases (n_pts raw_index : Z) (r : R) :
  0 <= r <= 1 ->
  let idx := Index.pre_index n_pts raw_index (Fin r) in
  (raw_index = 2 * Index.int idx + raw_index mod 2)%Z
  /\ ((raw_index mod 2 = 0)%Z ->
      Index.x idx = zero /\ Index.y idx = Fin r)
  /\ ((raw_index mod 2 = 1)%Z ->
      Index.x idx = Fin r /\ Index.y idx = one).
Proof.
  intros Hr idx. subst idx. unfold Index.pre_index, Index.divmod2.
  split.
  - destruct (raw_index mod 2 =? 0)%Z; cbn [Index.int]; apply Z.div_mod; lia.
  - split; intros H; rewrite H; simpl; auto.
Qed.

Lemma pre_index_phases_witness :
  Index.x (Index.pre_index 9 3 (Fin (1 / 4))) = Fin (1 / 4)
  /\ Index.y (Index.pre_index 9 3 (Fin (1 / 4))) = one.
Proof.
  apply (pre_index_phases 9 3 (r := 1 / 4)); [lra | reflexivity].
Defined.

(** C3 as worded (even phase: offset on x; odd phase: offset on y, x
    anchored at 1) is what [post_index] does, not [pre_index]. *)
Lemma pre_index_axes_swapped :
  0 <= 1 / 4 <= 1
  /\ (0 mod 2 = 0)%Z
  /\ Index.x (Index.pre_index 5 0 (Fin (1 / 4))) <> Fin (1 / 4)
  /\ (1 mod 2 = 1)%Z
  /\ Index.y (Index.pre_index 5 1 (Fin (1 / 4))) <> Fin (1 / 4)
  /\ Index.x (Index.pre_index 5 1 (Fin (1 / 4))) <> one.
Proof.
  repeat split; try lra; simpl; unfold zero, one; intros H;
    apply Fin_inj in H; lra.
Qed.

(** ** Filled regions and point collections *)

(** C7: on an image or a patch, a hit of the host's containment test gives
    a selection at distance 0 whose target is the event's data coordinates,
    and a miss gives no match. *)
Theorem filled_region_pick (a : Artist) (event : Event) (inside : bool) :
  (exists im, a = AAxesImage im /\ inside = im_contains im event)
  \/ (exists p, a = APatch p /\ inside = patch_contains p event) ->
  compute_pick a event =
  ([], Ok (if inside
           then Some (mkSelection a (AttrArray (xdata event, ydata event)
                                               None) (Fin 0) None None)
           else None)).
Proof.
  intros [[im [-> ->]] | [p [-> ->]]]; unfold compute_pick, compute_pick_filled.
  - destruct (im_contains im event); reflexivity.
  - destruct (patch_contains p event); reflexivity.
Qed.

Lemma filled_region_pick_witness :
  compute_pick (APatch hit_patch) origin_event =
  ([], Ok (Some (mkSelection (APatch hit_patch)
                             (AttrArray (Fin 0, Fin 0) None)
                             (Fin 0) None None))).
Proof.
  apply (@filled_region_pick (APatch hit_patch) origin_event true).
  right. exists hit_patch. split; reflexivity.
Defined.

(** C9, as the code has it: a collection with more than one path is never
    matched; the diagnostic is emitted exactly when the host's containment
    test reports a hit, since a miss returns before the path count is
    looked at. *)
Theorem multi_path_pick (c : PathCollection) (event : Event) :
  pc_paths c <> 1%nat ->
  compute_pick (APathCollection c) event =
  (if fst (pc_contains c event) then [scatter_warning] else [], Ok None).
Proof.
  intros H. unfold compute_pick, compute_pick_PathCollection.
  destruct (pc_contains c event) as [contains ind]. cbn [fst].
  destruct contains; cbn [negb]; [|reflexivity].
  destruct (Nat.eqb_spec (pc_paths c) 1); [contradiction | reflexivity].
Qed.

Lemma multi_path_pick_witness :
  compute_pick (APathCollection missed_tri_collection) origin_event =
  ([], Ok None).
Proof.
  apply (@multi_path_pick missed_tri_collection origin_event).
  simpl. discriminate.
Defined.

(** C9 as worded fails on a collection with two paths that the event
    misses: no match, and no diagnostic is emitted. *)
Lemma multi_path_miss_is_silent :
  pc_paths missed_tri_collection = 2%nat
  /\ fst (compute_pick (APathCollection missed_tri_collection) origin_event)
     = []
  /\ snd (compute_pick (APathCollection missed_tri_collection) origin_event)
     = Ok None.
Proof. repeat split. Qed.

(** ** Moving over the cells of an image *)

Lemma Rtrunc_cell_middle (i : Z) : (0 <= i)%Z -> Rtrunc (IZR i + 1 / 2) = i.
Proof.
  intros Hi. apply IZR_le in Hi. unfold Rtrunc.
  destruct (Rlt_dec (IZR i + 1 / 2) 0); [lra|].
  unfold Rfloor. symmetry. apply Int_part_spec. lra.
Qed.

Lemma cell_center_Fin (i n : Z) (l h : R) :
  n <> 0%Z ->
  cell_center i (Fin l) (Fin h) n =
  Fin ((IZR i + 1 / 2) / IZR n * (h - l) + l).
Proof.
  intros Hn. unfold cell_center, of_Z, half.
  unfold fadd at 2. unfold lift2. rewrite fdiv_Fin; [reflexivity|].
  intros H. apply eq_IZR_R0 in H. contradiction.
Qed.

(** The cell of the centre of cell [i] is [i]. *)
Lemma to_cell_center (i n : Z) (l h : R) :
  (0 <= i < n)%Z -> l <> h ->
  to_cell (cell_center i (Fin l) (Fin h) n) (Fin l) (Fin h) n = i.
Proof.
  intros Hi Hlh.
  assert (Hn : IZR n <> 0).
  { intros H. apply eq_IZR_R0 in H. lia. }
  rewrite cell_center_Fin by lia.
  unfold to_cell, of_Z. unfold fsub, lift2.
  rewrite fdiv_Fin by lra. unfold fmul, lift2, astype_int.
  replace (((IZR i + 1 / 2) / IZR n * (h - l) + l - l) / (h - l) * IZR n)
    with (IZR i + 1 / 2) by (field; split; lra).
  apply Rtrunc_cell_middle. lia.
Qed.

(** One arrow key from the centre of cell [(i, j)] of an exact image leads
    to the centre of the cell one step away, modulo the array dimensions;
    the other fields are kept. *)
Lemma move_image_cell (im : AxesImage) (sel : Selection) (key : string)
      (x0 x1 y0 y1 : R) (rows cols i j dx dy : Z) :
  artist sel = AAxesImage im -> im_exact im = true ->
  get_extent im = (Fin x0, Fin x1, Fin y0, Fin y1) ->
  x0 <> x1 -> y0 <> y1 ->
  shape im = (rows, cols) ->
  (0 <= i < cols)%Z -> (0 <= j < rows)%Z ->
  coords (target sel) = (cell_center i (Fin x0) (Fin x1) cols,
                         cell_center j (Fin y0) (Fin y1) rows) ->
  key_step key = Ok (dx, dy) ->
  move sel key =
  Ok (mkSelection (artist sel)
        (AttrArray (cell_center ((i + dx) mod cols) (Fin x0) (Fin x1) cols,
                    cell_center ((j + dy) mod rows) (Fin y0) (Fin y1) rows)
                   None)
        (dist sel) (annotation sel) (extras sel)).
Proof.
  intros Ha He Hx Hx01 Hy01 Hs Hi Hj Hc Hk.
  unfold move. rewrite Ha. unfold move_AxesImage.
  rewrite He, Hx, Hs, Hc, Hk. cbn [negb fst snd bind].
  rewrite !to_cell_center by assumption.
  unfold np_mod.
  destruct (Z.eqb_spec cols 0); [lia|].
  destruct (Z.eqb_spec rows 0); [lia|].
  rewrite Ha. reflexivity.
Qed.

(** C8, as the code has it: on an exact image, from the centre of any cell,
    [right] then [left] comes back to the centre of the same cell; this
    holds across the wrap boundary too, where [right] lands on column 0 and
    [left] wraps back to the last column. *)
Theorem image_right_left_inverse (im : AxesImage) (sel : Selection)
        (x0 x1 y0 y1 : R) (rows cols i j : Z) :
  artist sel = AAxesImage im -> im_exact im = true ->
  get_extent im = (Fin x0, Fin x1, Fin y0, Fin y1) ->
  x0 <> x1 -> y0 <> y1 ->
  shape im = (rows, cols) ->
  (0 <= i < cols)%Z -> (0 <= j < rows)%Z ->
  coords (target sel) = (cell_center i (Fin x0) (Fin x1) cols,
                         cell_center j (Fin y0) (Fin y1) rows) ->
  exists s1 s2,
    move sel "right" = Ok s1
    /\ coords (target s1) =
       (cell_center ((i + 1) mod cols) (Fin x0) (Fin x1) cols,
        cell_center j (Fin y0) (Fin y1) rows)
    /\ move s1 "left" = Ok s2
    /\ coords (target s2) = coords (target sel).
Proof.
  intros Ha He Hx Hx01 Hy01 Hs Hi Hj Hc.
  assert (Hj0 : forall k, (0 <= k < rows)%Z -> ((k + 0) mod rows = k)%Z).
  { intros k Hk. rewrite Z.add_0_r. apply Z.mod_small. assumption. }
  pose proof (@move_image_cell im sel "right" x0 x1 y0 y1 rows cols i j
                               1 0 Ha He Hx Hx01 Hy01 Hs Hi Hj Hc eq_refl)
    as H1.
  rewrite Hj0 in H1 by assumption.
  set (s1 := mkSelection (artist sel)
               (AttrArray
                  (cell_center ((i + 1) mod cols) (Fin x0) (Fin x1) cols,
                   cell_center j (Fin y0) (Fin y1) rows) None)
               (dist sel) (annotation sel) (extras sel)) in *.
  assert (Hi1 : (0 <= (i + 1) mod cols < cols)%Z)
    by (apply Z.mod_pos_bound; lia).
  pose proof (@move_image_cell im s1 "left" x0 x1 y0 y1 rows cols
                               ((i + 1) mod cols) j (-1) 0
                               Ha He Hx Hx01 Hy01 Hs Hi1 Hj eq_refl eq_refl)
    as H2.
  rewrite Hj0 in H2 by assumption.
  replace (((i + 1) mod cols + -1) mod cols)%Z with i in H2.
  - exists s1. eexists. split; [exact H1|]. split; [reflexivity|].
    split; [exact H2|]. cbn [target coords]. symmetry. exact Hc.
  - rewrite Zplus_mod_idemp_l.
    replace (i + 1 + -1)%Z with i by lia.
    symmetry. apply Z.mod_small. assumption.
Qed.

Lemma image_right_left_inverse_witness :
  exists s1 s2,
    move (image_selection 2 0) "right" = Ok s1
    /\ coords (target s1) =
       (cell_center ((2 + 1) mod 3) (Fin 0) (Fin 3) 3,
        cell_center 0 (Fin 0) (Fin 2) 2)
    /\ move s1 "left" = Ok s2
    /\ coords (target s2) = coords (target (image_selection 2 0)).
Proof.
  apply (@image_right_left_inverse small_image (image_selection 2 0)
                                   0 3 0 2 2 3 2 0);
    try reflexivity; try lra; try lia.
Defined.

(** C8 as worded fails across the wrap boundary: from the last of three
    columns, [right] lands on column 0 and [left] then lands on the last
    column again, the original cell, not on the opposite edge column. *)
Lemma image_wrap_returns_to_last_column :
  exists s1 s2,
    move (image_selection 2 0) "right" = Ok s1
    /\ fst (coords (target s1)) = cell_center 0 (Fin 0) (Fin 3) 3
    /\ move s1 "left" = Ok s2
    /\ fst (coords (target s2)) = cell_center 2 (Fin 0) (Fin 3) 3
    /\ fst (coords (target s2)) <> cell_center 0 (Fin 0) (Fin 3) 3.
Proof.
  assert (H03 : 0 <> 3) by lra.
  assert (H02 : 0 <> 2) by lra.
  pose proof (@move_image_cell small_image (image_selection 2 0) "right"
                               0 3 0 2 2 3 2 0 1 0 eq_refl eq_refl eq_refl
                               H03 H02 eq_refl ltac:(lia) ltac:(lia)
                               eq_refl eq_refl) as H1.
  change ((2 + 1) mod 3)%Z with 0%Z in H1.
  change ((0 + 0) mod 2)%Z with 0%Z in H1.
  match type of H1 with _ = Ok ?s => set (s1 := s) in * end.
  pose proof (@move_image_cell small_image s1 "left"
                               0 3 0 2 2 3 0 0 (-1) 0 eq_refl eq_refl eq_refl
                               H03 H02 eq_refl ltac:(lia) ltac:(lia)
                               eq_refl eq_refl) as H2.
  change ((0 + -1) mod 3)%Z with 2%Z in H2.
  change ((0 + 0) mod 2)%Z with 0%Z in H2.
  exists s1. eexists.
  split; [exact H1|]. split; [reflexivity|].
  split; [exact H2|]. split; [reflexivity|].
  cbn [target coords fst]. rewrite !cell_center_Fin by lia.
  intros H. apply Fin_inj in H. lra.
Qed.

(** C10: on an exact image, every arrow key returns a selection that
    differs from the input in its target only; artist, dist, annotation and
    extras are those of the input, so the distance is not reset to 0. *)
Theorem move_image_replaces_target_only (im : AxesImage) (sel : Selection)
        (key : string) :
  artist sel = AAxesImage im -> im_exact im = true ->
  In key ["left"; "right"; "up"; "down"]%string ->
  exists new_target,
    move sel key =
    Ok (mkSelection (artist sel) new_target (dist sel) (annotation sel)
                    (extras sel)).
Proof.
  intros Ha He Hk. unfold move. rewrite Ha. unfold move_AxesImage.
  rewrite He. destruct (get_extent im) as [[[x0 x1] y0] y1].
  cbn [negb]. rewrite Ha.
  simpl in Hk.
  destruct Hk as [<- | [<- | [<- | [<- | []]]]];
    eexists; reflexivity.
Qed.

Lemma move_image_replaces_target_only_witness :
  exists new_target,
    move (image_selection 1 1) "up" =
    Ok (mkSelection (AAxesImage small_image) new_target (Fin 2)
                    (Some 7%nat) (Some [8%nat])).
Proof.
  apply (@move_image_replaces_target_only small_image (image_selection 1 1)
                                          "up");
    [reflexivity | reflexivity | simpl; auto].
Defined.

(** ** Moving along the vertices of a line *)

Lemma move_line_step (l : Line2D) (sel : Selection) (key : string)
      (i : index_value) (z : Z) :
  artist sel = ALine2D l -> index (target sel) = Some i ->
  new_index key i = Ok (IntIndex z) ->
  get_xydata l <> [] ->
  move sel key =
  Ok (mkSelection (artist sel)
        (AttrArray
           (nth (Z.to_nat (z mod Z.of_nat (List.length (get_xydata l))))
                (get_xydata l) nan_point)
           (Some (IntIndex z)))
        (Fin 0) (annotation sel) (extras sel)).
Proof.
  intros Ha Hi Hn Hne. unfold move. rewrite Ha. unfold move_Line2D.
  rewrite Hi, Hn. cbn [bind]. unfold wrapped_vertex.
  destruct (Z.eqb_spec (Z.of_nat (List.length (get_xydata l))) 0) as [E|E].
  - destruct (get_xydata l); [contradiction | discriminate].
  - cbn [bind]. rewrite Ha. reflexivity.
Qed.

(** [left] goes to vertex [ceil(index) - 1], [right] to vertex
    [floor(index) + 1], both modulo the number of points, at distance 0;
    the wrapped vertex is a vertex of the line. *)
Lemma move_line_left_right (l : Line2D) (sel : Selection)
      (i : index_value) (c f : Z) :
  artist sel = ALine2D l -> index (target sel) = Some i ->
  index_ceil i = Ok c -> index_floor i = Ok f ->
  get_xydata l <> [] ->
  let n := Z.of_nat (List.length (get_xydata l)) in
  let vertex z := nth (Z.to_nat (z mod n)) (get_xydata l) nan_point in
  move sel "left" =
  Ok (mkSelection (artist sel)
                  (AttrArray (vertex (c - 1)%Z) (Some (IntIndex (c - 1))))
                  (Fin 0) (annotation sel) (extras sel))
  /\ move sel "right" =
     Ok (mkSelection (artist sel)
                     (AttrArray (vertex (f + 1)%Z) (Some (IntIndex (f + 1))))
                     (Fin 0) (annotation sel) (extras sel))
  /\ In (vertex (c - 1)%Z) (get_xydata l)
  /\ In (vertex (f + 1)%Z) (get_xydata l).
Proof.
  intros Ha Hi Hc Hf Hne n vertex.
  assert (Hn : (0 < n)%Z).
  { subst n. destruct (get_xydata l); [contradiction | simpl; lia]. }
  assert (Hin : forall z, In (vertex z) (get_xydata l)).
  { intros z. apply nth_In.
    pose proof (Z.mod_pos_bound z n Hn). subst n. lia. }
  split; [|split; [|split; apply Hin]].
  - apply move_line_step with (i := i); try assumption.
    unfold new_index. cbn [String.eqb Ascii.eqb Bool.eqb]. rewrite Hc.
    reflexivity.
  - apply move_line_step with (i := i); try assumption.
    unfold new_index. cbn [String.eqb Ascii.eqb Bool.eqb]. rewrite Hf.
    reflexivity.
Qed.

(** Any other key keeps an integer index. *)
Lemma move_line_other_key_integer (l : Line2D) (sel : Selection)
      (key : string) (z : Z) :
  artist sel = ALine2D l -> index (target sel) = Some (IntIndex z) ->
  key <> "left"%string -> key <> "right"%string ->
  get_xydata l <> [] ->
  move sel key =
  Ok (mkSelection (artist sel)
        (AttrArray
           (nth (Z.to_nat (z mod Z.of_nat (List.length (get_xydata l))))
                (get_xydata l) nan_point)
           (Some (IntIndex z)))
        (Fin 0) (annotation sel) (extras sel)).
Proof.
  intros Ha Hi Hl Hr Hne.
  apply move_line_step with (i := IntIndex z); try assumption.
  unfold new_index.
  destruct (String.eqb_spec key "left"); [contradiction|].
  destruct (String.eqb_spec key "right"); [contradiction|].
  reflexivity.
Qed.

(** The wrap-around on a line of 5 points. *)
Lemma move_line_wraps :
  (exists s, move (selection_at straight_line (pt 4 4) (IntIndex 4)) "right" = Ok s
             /\ coords (target s) = pt 0 0
             /\ index (target s) = Some (IntIndex 5))
  /\ (exists s, move (selection_at straight_line (pt 0 0) (IntIndex 0)) "left" = Ok s
                /\ coords (target s) = pt 4 4
                /\ index (target s) = Some (IntIndex (-1))).
Proof.
  split; eexists; (split; [reflexivity|]); split; reflexivity.
Qed.

(** Any other key on an index that is not an integer raises, whatever the
    line: the kept index cannot be used as an array position. *)
Lemma move_line_other_key_fractional (l : Line2D) (sel : Selection)
      (key : string) (i : index_value) :
  artist sel = ALine2D l -> index (target sel) = Some i ->
  key <> "left"%string -> key <> "right"%string ->
  match i with
  | IntIndex _ => True
  | FloatIndex _ => move sel key = Raise IndexError
  | ObjIndex _ => move sel key = Raise TypeError
  end.
Proof.
  intros Ha Hi Hl Hr. unfold move. rewrite Ha. unfold move_Line2D.
  rewrite Hi. unfold new_index.
  destruct (String.eqb_spec key "left"); [contradiction|].
  destruct (String.eqb_spec key "right"); [contradiction|].
  destruct i; reflexivity.
Qed.

(** C5 fails on the code for a key other than [left] and [right] when the
    index is fractional: the index is kept as it is and then used as an
    array position.  On a step-style line the index is an [Index] object,
    which has no [%], so [move] raises [TypeError] instead of returning a
    selection at distance 0. *)
Theorem move_other_key_step_index_raises :
  move (selection_at step_line (pt 1 (3 / 2))
                     (ObjIndex (Index.cls 1 zero half))) "up"
  = Raise TypeError.
Proof. reflexivity. Qed.

(** The same on a direct-style line, where the index is a float (an
    [IndexError] since numpy 1.12). *)
Lemma move_other_key_float_index_raises :
  move (selection_at straight_line (pt (1 / 2) (1 / 2))
                     (FloatIndex (Fin (1 / 2)))) "up"
  = Raise IndexError.
Proof. reflexivity. Qed.

(** ** nanargmin and min *)

Lemma nanargmin_from_spec (l : list npfloat) :
  forall (pre : list npfloat) (best_i : nat) (best : R) (i : nat),
    i = List.length pre ->
    nth_error pre best_i = Some (Fin best) ->
    (forall j w, nth_error pre j = Some (Fin w) -> best <= w) ->
    exists v,
      nth_error (pre ++ l) (nanargmin_from best_i best i l) = Some (Fin v)
      /\ forall j w, nth_error (pre ++ l) j = Some (Fin w) -> v <= w.
Proof.
  induction l as [|a t IH]; intros pre best_i best i Hi Hb Hmin.
  - rewrite app_nil_r. exists best. split; assumption.
  - assert (Hlt : (best_i < List.length pre)%nat).
    { apply nth_error_Some. rewrite Hb. discriminate. }
    assert (Hsplit : forall (j : nat) (w : R),
               nth_error (pre ++ [a]) j = Some (Fin w) ->
               nth_error pre j = Some (Fin w) \/ a = Fin w).
    { intros j w H. destruct (Nat.lt_ge_cases j (List.length pre)) as [Hj|Hj].
      - rewrite nth_error_app1 in H by assumption. left. assumption.
      - rewrite nth_error_app2 in H by assumption.
        destruct (j - List.length pre)%nat as [|k]; simpl in H.
        + right. congruence.
        + destruct k; discriminate. }
    replace (pre ++ a :: t) with ((pre ++ [a]) ++ t)
      by (rewrite <- app_assoc; reflexivity).
    assert (Hlen : S i = List.length (pre ++ [a])).
    { rewrite length_app. simpl. lia. }
    destruct a as [v|]; simpl.
    + destruct (Rlt_dec v best) as [Hv|Hv].
      * apply IH; [assumption | |].
        -- rewrite nth_error_app2 by lia.
           replace (i - List.length pre)%nat with 0%nat by lia. reflexivity.
        -- intros j w H. destruct (Hsplit j w H) as [H'|H'].
           ++ apply Hmin in H'. lra.
           ++ apply Fin_inj in H'. lra.
      * apply IH; [assumption | |].
        -- rewrite nth_error_app1 by assumption. assumption.
        -- intros j w H. destruct (Hsplit j w H) as [H'|H'].
           ++ apply Hmin in H'. assumption.
           ++ apply Fin_inj in H'. lra.
    + apply IH; [assumption | |].
      * rewrite nth_error_app1 by assumption. assumption.
      * intros j w H. destruct (Hsplit j w H) as [H'|H'].
        -- apply Hmin in H'. assumption.
        -- discriminate.
Qed.

Lemma nanargmin_skip_spec (l : list npfloat) :
  forall (pre : list npfloat) (i : nat),
    i = List.length pre ->
    Forall (fun a => a = NaN) pre ->
    match nanargmin_skip i l with
    | Ok k =>
        exists v,
          nth_error (pre ++ l) k = Some (Fin v)
          /\ forall j w, nth_error (pre ++ l) j = Some (Fin w) -> v <= w
    | Raise e => e = ValueError /\ Forall (fun a => a = NaN) (pre ++ l)
    end.
Proof.
  induction l as [|a t IH]; intros pre i Hi Hnan.
  - simpl. rewrite app_nil_r. split; [reflexivity | assumption].
  - replace (pre ++ a :: t) with ((pre ++ [a]) ++ t)
      by (rewrite <- app_assoc; reflexivity).
    assert (Hlen : S i = List.length (pre ++ [a])).
    { rewrite length_app. simpl. lia. }
    destruct a as [v|]; simpl.
    + apply nanargmin_from_spec; [assumption | |].
      * rewrite nth_error_app2 by lia.
        replace (i - List.length pre)%nat with 0%nat by lia. reflexivity.
      * intros j w H.
        destruct (Nat.lt_ge_cases j (List.length pre)) as [Hj|Hj].
        -- rewrite nth_error_app1 in H by assumption.
           apply nth_error_In in H.
           rewrite Forall_forall in Hnan. apply Hnan in H. discriminate.
        -- rewrite nth_error_app2 in H by assumption.
           destruct (j - List.length pre)%nat as [|k]; simpl in H.
           ++ injection H as H. lra.
           ++ destruct k; discriminate.
    + apply IH; [assumption|].
      apply Forall_app. split; [assumption|]. constructor; auto.
Qed.

(** [np.nanargmin] returns the position of a finite entry that is smallest
    among the finite entries, and raises [ValueError] exactly on an array
    without finite entry. *)
Lemma nanargmin_spec (l : list npfloat) :
  match nanargmin l with
  | Ok k =>
      exists v,
        nth_error l k = Some (Fin v)
        /\ forall j w, nth_error l j = Some (Fin w) -> v <= w
  | Raise e => e = ValueError /\ Forall (fun a => a = NaN) l
  end.
Proof.
  unfold nanargmin.
  apply (@nanargmin_skip_spec l [] 0%nat); [reflexivity | constructor].
Qed.

Lemma nanargmin_all_nan (l : list npfloat) :
  Forall (fun a => a = NaN) l -> nanargmin l = Raise ValueError.
Proof.
  intros H. pose proof (nanargmin_spec l) as S.
  destruct (nanargmin l) as [k|e].
  - destruct S as [v [Hk _]]. apply nth_error_In in Hk.
    rewrite Forall_forall in H. apply H in Hk. discriminate.
  - destruct S as [-> _]. reflexivity.
Qed.

Lemma py_min_from_spec (A : Type) (key : A -> npfloat) (rest : list A) :
  forall cur : A,
    finite (key cur) -> Forall (fun s => finite (key s)) rest ->
    let m := py_min_from key cur rest in
    In m (cur :: rest)
    /\ Forall (fun s => fle (key m) (key s)) (cur :: rest).
Proof.
  induction rest as [|s r IH]; intros cur Hc Hr.
  - simpl. split; [auto|]. constructor; [|constructor].
    destruct Hc as [u ->]. exists u, u. repeat split. lra.
  - inversion Hr as [|? ? Hs Hr']; subst. simpl.
    destruct Hc as [u Hu]. destruct Hs as [v Hv].
    rewrite Hu, Hv. unfold fltb.
    destruct (Rlt_dec v u) as [Hlt|Hge].
    + destruct (IH s (ex_intro _ v Hv) Hr') as [Hin Hall].
      split.
      * simpl in Hin. simpl. tauto.
      * inversion Hall as [|? ? Hms Hmr]; subst.
        constructor; [|constructor; assumption].
        destruct Hms as [a [b [Ha [Hb Hab]]]].
        exists a, u. repeat split; try assumption.
        rewrite Hv in Hb. apply Fin_inj in Hb. lra.
    + destruct (IH cur (ex_intro _ u Hu) Hr') as [Hin Hall].
      split.
      * simpl in Hin. simpl. tauto.
      * inversion Hall as [|? ? Hmc Hmr]; subst.
        constructor; [assumption|]. constructor; [|assumption].
        destruct Hmc as [a [b [Ha [Hb Hab]]]].
        exists a, v. repeat split; try assumption.
        rewrite Hu in Hb. apply Fin_inj in Hb. lra.
Qed.

(** ** Segments *)

Lemma sumsq_nonneg (p : point) (v : R) : sumsq p = Fin v -> 0 <= v.
Proof.
  destruct p as [[a|] [b|]]; unfold sumsq, fadd, fmul, lift2; cbn [fst snd];
    try discriminate.
  intros H. apply Fin_inj in H. subst v. nra.
Qed.

Lemma squares_nonneg (a b : R) : 0 <= a * a + b * b.
Proof. nra. Qed.

Lemma sqrt_sumsq_zero (a b : R) : sqrt (a * a + b * b) = 0 -> a = 0 /\ b = 0.
Proof.
  intros H. apply sqrt_eq_0 in H; [|nra]. split; nra.
Qed.

(** The unit vector of a segment is divided by a zero length only when its
    numerator is zero as well: the division is 0/0. *)
Lemma unit_vector_numerator_zero (p0 p1 : point) :
  fsqrt (sumsq (psub p1 p0)) = Fin 0 -> psub p1 p0 = (Fin 0, Fin 0).
Proof.
  destruct p0 as [[a0|] [b0|]], p1 as [[a1|] [b1|]];
    unfold psub, sumsq, fsub, fadd, fmul, lift2; cbn [fst snd fsqrt];
    try discriminate.
  destruct (Rlt_dec _ 0); [discriminate|].
  intros H. apply Fin_inj in H. apply sqrt_sumsq_zero in H.
  destruct H as [-> ->]. reflexivity.
Qed.

(** A segment of length zero has no distance: its entry of [d2s] is NaN. *)
Lemma zero_length_segment_nan (xy p0 p1 : point) :
  seg_ds (segment xy p0 p1) = Fin 0 -> seg_d2s (segment xy p0 p1) = NaN.
Proof.
  unfold segment. cbn [seg_ds seg_d2s]. intros H. rewrite H.
  rewrite !fdiv_zero_r.
  destruct xy as [[x|] [y|]], p0 as [[a0|] [b0|]]; reflexivity.
Qed.

Lemma doubled_point_length (a b : R) :
  seg_ds (segment (Fin 0, Fin 0) (pt a b) (pt a b)) = Fin 0.
Proof.
  unfold segment, pt, psub, sumsq, fsub, fadd, fmul, lift2.
  cbn [seg_ds fst snd]. rewrite fsqrt_Fin by apply squares_nonneg. f_equal.
  replace ((a - a) * (a - a) + (b - b) * (b - b)) with 0 by ring.
  apply sqrt_0.
Qed.

(** On a segment between two distinct finite points and for a finite event
    position, every quantity of lines 144-153 is a number; the clipped dot
    product lies between 0 and the length, and the projection is the point
    of the segment at that offset. *)
Lemma segment_clamped (x y a0 b0 a1 b1 : R) :
  let s := segment (Fin x, Fin y) (Fin a0, Fin b0) (Fin a1, Fin b1) in
  let d := sqrt ((a1 - a0) * (a1 - a0) + (b1 - b0) * (b1 - b0)) in
  d <> 0 ->
  seg_ds s = Fin d
  /\ exists t,
      seg_dot s = Fin t
      /\ 0 <= t <= d
      /\ seg_projs s = (Fin (a0 + t * ((a1 - a0) / d)),
                        Fin (b0 + t * ((b1 - b0) / d))).
Proof.
  intros s d Hd.
  assert (Hpos : 0 <= d) by apply sqrt_pos.
  assert (Hds : seg_ds s = Fin d).
  { subst s d. unfold segment, psub, sumsq, fsub, fadd, fmul, lift2.
    cbn [seg_ds fst snd]. apply fsqrt_Fin. apply squares_nonneg. }
  split; [assumption|].
  subst s. unfold segment in *. cbn [seg_ds seg_dot seg_projs] in *.
  rewrite Hds. unfold psub, fsub, lift2. cbn [fst snd].
  rewrite !fdiv_Fin by assumption.
  unfold rowdot, np_clip, np_maximum, np_minimum, zero, fadd, fmul, lift2.
  cbn [fst snd].
  eexists. split; [reflexivity|]. split; [|reflexivity].
  unfold Rmin, Rmax.
  repeat match goal with |- context [Rle_dec ?u ?v] =>
                           destruct (Rle_dec u v) end; lra.
Qed.

(** The length of a segment is a number only between finite points. *)
Lemma segment_length_finite (xy p0 p1 : point) (d : R) :
  seg_ds (segment xy p0 p1) = Fin d ->
  exists a0 b0 a1 b1,
    p0 = (Fin a0, Fin b0) /\ p1 = (Fin a1, Fin b1)
    /\ d = sqrt ((a1 - a0) * (a1 - a0) + (b1 - b0) * (b1 - b0)).
Proof.
  destruct p0 as [[a0|] [b0|]], p1 as [[a1|] [b1|]];
    unfold segment, psub, sumsq, fsub, fadd, fmul, lift2;
    cbn [seg_ds fst snd fsqrt]; try discriminate.
  destruct (Rlt_dec _ 0); [discriminate|].
  intros H. apply Fin_inj in H.
  exists a0, b0, a1, b1. repeat split. symmetry. exact H.
Qed.

(** An entry of [d2s] that is a number comes from a segment of nonzero
    length: [np.nanargmin] never selects a degenerate segment. *)
Lemma finite_distance_nonzero_length (xy p0 p1 : point) (v : R) :
  seg_d2s (segment xy p0 p1) = Fin v ->
  exists d, seg_ds (segment xy p0 p1) = Fin d /\ d <> 0.
Proof.
  intros Hv.
  destruct (seg_ds (segment xy p0 p1)) as [d|] eqn:Hd.
  - exists d. split; [reflexivity|]. intros ->.
    apply zero_length_segment_nan in Hd. congruence.
  - exfalso. unfold segment in *. cbn [seg_ds seg_d2s] in *.
    rewrite Hd in Hv.
    destruct xy as [[x|] [y|]], p0 as [[a0|] [b0|]], p1 as [[a1|] [b1|]];
      discriminate.
Qed.

Lemma in_segments (xy : point) (artist_xys : list point) (s : Segment) :
  In s (segments xy artist_xys) ->
  exists p0 p1, In (p0, p1) (consecutive artist_xys) /\ s = segment xy p0 p1.
Proof.
  unfold segments. intros H. apply in_map_iff in H.
  destruct H as [[p0 p1] [Hs Hin]]. exists p0, p1. split; [assumption|].
  symmetry. exact Hs.
Qed.

(** C6: on every segment of nonzero length of the polyline, and for every
    event position, the clipped dot product lies in [[0, len(segment)]], so
    the projection is the point of the segment at the parameter
    [dot / len] of [[0, 1]]: it never lies beyond an endpoint. *)
Theorem projection_clamped_to_segment (event : Event)
        (artist_xys : list point) (s : Segment) (d : R) :
  In s (segments (event_xy event) artist_xys) ->
  seg_ds s = Fin d -> d <> 0 ->
  exists a0 b0 a1 b1 t,
    In ((Fin a0, Fin b0), (Fin a1, Fin b1)) (consecutive artist_xys)
    /\ d = sqrt ((a1 - a0) * (a1 - a0) + (b1 - b0) * (b1 - b0))
    /\ seg_dot s = Fin t
    /\ 0 <= t <= d
    /\ 0 <= t / d <= 1
    /\ seg_projs s = (Fin (a0 + t / d * (a1 - a0)),
                      Fin (b0 + t / d * (b1 - b0))).
Proof.
  intros Hin Hds Hd.
  destruct (in_segments _ _ _ Hin) as [p0 [p1 [Hpair ->]]].
  destruct (segment_length_finite _ _ _ Hds)
    as [a0 [b0 [a1 [b1 [-> [-> Hsqrt]]]]]].
  assert (Hd' : sqrt ((a1 - a0) * (a1 - a0) + (b1 - b0) * (b1 - b0)) <> 0)
    by (rewrite <- Hsqrt; assumption).
  destruct (segment_clamped (ev_x event) (ev_y event) a0 b0 a1 b1 Hd')
    as [_ [t [Hdot [Ht Hproj]]]].
  rewrite <- Hsqrt in Ht, Hproj.
  assert (Hpos : 0 < d).
  { pose proof (sqrt_pos ((a1 - a0) * (a1 - a0) + (b1 - b0) * (b1 - b0))).
    rewrite <- Hsqrt in H. lra. }
  exists a0, b0, a1, b1, t.
  split; [assumption|]. split; [assumption|].
  split; [exact Hdot|]. split; [assumption|].
  split.
  - split.
    + apply Rmult_le_pos; [lra|]. left. apply Rinv_0_lt_compat. assumption.
    + apply Rmult_le_reg_r with d; [assumption|].
      unfold Rdiv. rewrite Rmult_assoc, Rinv_l by assumption. lra.
  - unfold event_xy. rewrite Hproj.
    f_equal; f_equal; field; assumption.
Qed.

Lemma projection_clamped_to_segment_witness :
  exists a0 b0 a1 b1 t,
    In ((Fin a0, Fin b0), (Fin a1, Fin b1)) (consecutive [pt 0 0; pt 3 4])
    /\ sqrt ((3 - 0) * (3 - 0) + (4 - 0) * (4 - 0))
       = sqrt ((a1 - a0) * (a1 - a0) + (b1 - b0) * (b1 - b0))
    /\ seg_dot (segment (event_xy origin_event) (pt 0 0) (pt 3 4)) = Fin t
    /\ 0 <= t <= sqrt ((3 - 0) * (3 - 0) + (4 - 0) * (4 - 0))
    /\ 0 <= t / sqrt ((3 - 0) * (3 - 0) + (4 - 0) * (4 - 0)) <= 1
    /\ seg_projs (segment (event_xy origin_event) (pt 0 0) (pt 3 4))
       = (Fin (a0 + t / sqrt ((3 - 0) * (3 - 0) + (4 - 0) * (4 - 0))
                    * (a1 - a0)),
          Fin (b0 + t / sqrt ((3 - 0) * (3 - 0) + (4 - 0) * (4 - 0))
                    * (b1 - b0))).
Proof.
  assert (Hd : sqrt ((3 - 0) * (3 - 0) + (4 - 0) * (4 - 0)) <> 0).
  { intros H. apply sqrt_eq_0 in H; lra. }
  apply (@projection_clamped_to_segment origin_event [pt 0 0; pt 3 4]
           (segment (event_xy origin_event) (pt 0 0) (pt 3 4))
           (sqrt ((3 - 0) * (3 - 0) + (4 - 0) * (4 - 0)))).
  - left. reflexivity.
  - apply (segment_clamped 0 0 0 0 3 4). exact Hd.
  - exact Hd.
Defined.

(** ** The candidates of a line pick *)

Lemma nanargmin_distance_finite (d2s : list npfloat) (k : nat) :
  (forall a, In a d2s -> exists p, a = sumsq p) ->
  nanargmin d2s = Ok k ->
  finite (fsqrt (nth k d2s NaN)).
Proof.
  intros Hsq Hk. pose proof (nanargmin_spec d2s) as S. rewrite Hk in S.
  destruct S as [v [Hv _]].
  rewrite (nth_error_nth _ _ NaN Hv).
  apply nth_error_In in Hv. destruct (Hsq _ Hv) as [p Hp].
  symmetry in Hp. apply sumsq_nonneg in Hp.
  exists (sqrt v). apply fsqrt_Fin. assumption.
Qed.

Lemma marker_candidate_finite (l : Line2D) (event : Event) (s : Selection) :
  marker_candidate l event = Ok s -> finite (dist s).
Proof.
  unfold marker_candidate. cbv zeta.
  destruct (nanargmin _) as [k|e] eqn:Hk; [|discriminate].
  cbn [bind]. intros H. injection H as <-. cbn [dist].
  apply nanargmin_distance_finite; [|exact Hk].
  intros a Ha. apply in_map_iff in Ha. destruct Ha as [p [<- _]].
  eexists. reflexivity.
Qed.

Lemma line_candidate_finite (l : Line2D) (event : Event) (s : Selection) :
  line_candidate l event = Ok s -> finite (dist s).
Proof.
  unfold line_candidate. cbv zeta.
  destruct (nanargmin _) as [k|e] eqn:Hk; [|discriminate].
  cbn [bind]. intros H. injection H as <-. cbn [dist].
  apply nanargmin_distance_finite; [|exact Hk].
  intros a Ha. apply in_map_iff in Ha. destruct Ha as [sg [<- Hsg]].
  apply in_segments in Hsg. destruct Hsg as [p0 [p1 [_ ->]]].
  eexists. reflexivity.
Qed.

(** The projection of a line candidate lies on a segment of nonzero
    length of the polyline. *)
Lemma line_candidate_projection (l : Line2D) (event : Event)
      (sel : Selection) :
  line_candidate l event = Ok sel ->
  exists s d,
    In s (segments (event_xy event) (line_artist_xys l))
    /\ seg_ds s = Fin d /\ d <> 0
    /\ coords (target sel) = transData_inverted (line_axes l) (seg_projs s).
Proof.
  unfold line_candidate. cbv zeta.
  destruct (nanargmin _) as [k|e] eqn:Hk; [|discriminate].
  cbn [bind]. intros H. injection H as <-. cbn [target coords].
  pose proof (nanargmin_spec
                (map seg_d2s (segments (event_xy event) (line_artist_xys l))))
    as S.
  rewrite Hk in S. destruct S as [v [Hv _]].
  rewrite nth_error_map in Hv.
  destruct (nth_error (segments (event_xy event) (line_artist_xys l)) k)
    as [s|] eqn:Hs; [|discriminate].
  cbn [option_map] in Hv. injection Hv as Hv.
  rewrite (nth_error_nth _ _ nan_segment Hs).
  apply nth_error_In in Hs.
  destruct (in_segments _ _ _ Hs) as [p0 [p1 [_ E]]].
  rewrite E in Hv. destruct (finite_distance_nonzero_length _ _ _ Hv)
    as [d [Hd Hd0]].
  exists s, d. rewrite E at 2. repeat split; assumption.
Qed.

Lemma candidates_finite (l : Line2D) (event : Event)
      (sels : list Selection) :
  candidates l event = Ok sels -> Forall (fun s => finite (dist s)) sels.
Proof.
  unfold candidates.
  destruct (style_visible (get_marker l)).
  - destruct (marker_candidate l event) as [s1|e] eqn:H1; [|discriminate].
    apply marker_candidate_finite in H1. cbn [bind].
    destruct (style_visible (get_linestyle l)
              && (1 <? List.length (get_xydata l))%nat)%bool.
    + destruct (line_candidate l event) as [s2|e] eqn:H2; [|discriminate].
      apply line_candidate_finite in H2. cbn [bind app].
      intros H. injection H as <-. repeat constructor; assumption.
    + cbn [bind app]. intros H. injection H as <-.
      repeat constructor; assumption.
  - cbn [bind].
    destruct (style_visible (get_linestyle l)
              && (1 <? List.length (get_xydata l))%nat)%bool.
    + destruct (line_candidate l event) as [s2|e] eqn:H2; [|discriminate].
      apply line_candidate_finite in H2. cbn [bind app].
      intros H. injection H as <-. repeat constructor; assumption.
    + cbn [bind app]. intros H. injection H as <-. constructor.
Qed.

(** ** The line pick *)

Lemma fltb_flt (a b : npfloat) : fltb a b = true <-> flt a b.
Proof.
  split.
  - apply fltb_true_inv.
  - intros [u [v [-> [-> H]]]]. apply fltb_Fin_true. assumption.
Qed.

(** C1: among the candidates produced for a line, [compute_pick] keeps one
    of minimum distance, returns it if and only if its distance is strictly
    less than the pick radius, and returns no match otherwise (also when
    there is no candidate). *)
Theorem line_pick_nearest_within_radius (l : Line2D) (event : Event)
        (sels : list Selection) :
  candidates l event = Ok sels ->
  match py_min dist sels with
  | None => sels = [] /\ compute_pick (ALine2D l) event = ([], Ok None)
  | Some m =>
      In m sels
      /\ Forall (fun s => fle (dist m) (dist s)) sels
      /\ (flt (dist m) (pickradius l) ->
          compute_pick (ALine2D l) event = ([], Ok (Some m)))
      /\ (~ flt (dist m) (pickradius l) ->
          compute_pick (ALine2D l) event = ([], Ok None))
  end.
Proof.
  intros Hc. pose proof (candidates_finite _ _ Hc) as Hfin.
  unfold compute_pick, compute_pick_Line2D. rewrite Hc. cbn [bind].
  destruct sels as [|s r]; cbn [py_min].
  - split; reflexivity.
  - inversion Hfin as [|? ? Hs Hr]; subst.
    destruct (@py_min_from_spec _ dist r s Hs Hr) as [Hin Hall].
    split; [assumption|]. split; [assumption|].
    unfold accept.
    destruct (fltb (dist (py_min_from dist s r)) (pickradius l)) eqn:Hlt.
    + split; [reflexivity|]. intros Hn. exfalso. apply Hn.
      apply fltb_flt. assumption.
    + split; [|reflexivity]. intros Hf. apply fltb_flt in Hf. congruence.
Qed.

Lemma single_marker_distance :
  dist (single_marker_selection 6) = Fin 5.
Proof.
  unfold single_marker_selection, origin_event, event_xy, pt, psub, sumsq,
    fsub, fadd, fmul, lift2.
  cbn [dist fst snd ev_x ev_y].
  rewrite fsqrt_Fin by apply squares_nonneg. f_equal.
  replace ((0 - 3) * (0 - 3) + (0 - 4) * (0 - 4)) with (5 * 5) by ring.
  apply sqrt_square. lra.
Qed.

Lemma line_pick_nearest_within_radius_witness :
  In (single_marker_selection 6) [single_marker_selection 6]
  /\ Forall (fun s => fle (dist (single_marker_selection 6)) (dist s))
            [single_marker_selection 6]
  /\ (flt (dist (single_marker_selection 6)) (Fin 6) ->
      compute_pick (ALine2D (single_marker 6)) origin_event
      = ([], Ok (Some (single_marker_selection 6))))
  /\ (~ flt (dist (single_marker_selection 6)) (Fin 6) ->
      compute_pick (ALine2D (single_marker 6)) origin_event = ([], Ok None)).
Proof.
  apply (@line_pick_nearest_within_radius (single_marker 6) origin_event
                                          [single_marker_selection 6]).
  reflexivity.
Defined.

(** A marker at distance 5 is picked with radius 6 and not with radius 5:
    the comparison is strict. *)
Lemma single_marker_radius_is_strict :
  compute_pick (ALine2D (single_marker 6)) origin_event
  = ([], Ok (Some (single_marker_selection 6)))
  /\ compute_pick (ALine2D (single_marker 5)) origin_event = ([], Ok None).
Proof.
  split.
  - unfold compute_pick. f_equal.
    change (compute_pick_Line2D (single_marker 6) origin_event)
      with (Ok (accept (Fin 6) (Some (single_marker_selection 6)))).
    unfold accept. rewrite single_marker_distance.
    rewrite fltb_Fin_true by lra. reflexivity.
  - unfold compute_pick. f_equal.
    change (compute_pick_Line2D (single_marker 5) origin_event)
      with (Ok (accept (Fin 5) (Some (single_marker_selection 5)))).
    unfold accept.
    change (dist (single_marker_selection 5))
      with (dist (single_marker_selection 6)).
    rewrite single_marker_distance.
    rewrite fltb_Fin_false by lra. reflexivity.
Qed.

(** With visible markers and no finite distance to any vertex, the pick
    raises: [np.nanargmin] has nothing to select. *)
Lemma marker_pick_without_finite_distance (l : Line2D) (event : Event) :
  style_visible (get_marker l) = true ->
  Forall (fun p => sumsq (psub (event_xy event)
                               (transform (get_transform l) p)) = NaN)
         (get_xydata l) ->
  compute_pick (ALine2D l) event = ([], Raise ValueError).
Proof.
  intros Hm Hnan. unfold compute_pick, compute_pick_Line2D, candidates.
  rewrite Hm. unfold marker_candidate. cbv zeta.
  rewrite nanargmin_all_nan; [reflexivity|].
  rewrite map_map. apply Forall_map. exact Hnan.
Qed.

(** C4 fails on the code: with visible markers an empty point sequence and
    a sequence whose distances are all NaN make [np.nanargmin] raise
    [ValueError], and so does a visible line made of one zero-length
    segment; the exception leaves [compute_pick]. *)
Theorem degenerate_line_pick_raises :
  compute_pick (ALine2D empty_line) origin_event = ([], Raise ValueError)
  /\ compute_pick (ALine2D nan_line) origin_event = ([], Raise ValueError)
  /\ compute_pick (ALine2D doubled_point_line) origin_event
     = ([], Raise ValueError).
Proof.
  split; [reflexivity|]. split; [reflexivity|].
  unfold compute_pick, compute_pick_Line2D, candidates.
  change (style_visible (get_marker doubled_point_line)) with false.
  change (style_visible (get_linestyle doubled_point_line)
          && (1 <? List.length (get_xydata doubled_point_line))%nat)%bool
    with true.
  cbn [bind].
  assert (E : line_candidate doubled_point_line origin_event
              = Raise ValueError).
  { unfold line_candidate. cbv zeta.
    change (segments (event_xy origin_event)
                     (line_artist_xys doubled_point_line))
      with [segment (Fin 0, Fin 0) (pt 1 2) (pt 1 2)].
    cbn [map].
    rewrite zero_length_segment_nan by apply doubled_point_length.
    reflexivity. }
  rewrite E. reflexivity.
Qed.

(** ** The index of a pick on a step-mid line *)

Lemma midstep_from_length (l : list point) :
  forall prev,
    List.length (cbook.midstep_from prev l) = (2 * List.length l + 1)%nat.
Proof.
  induction l as [|p t IH]; intros prev; simpl; [reflexivity|].
  rewrite IH. lia.
Qed.

(** The step-mid expansion of N points has 2N points. *)
Lemma pts_to_midstep_length (l : list point) :
  List.length (cbook.pts_to_midstep l) = (2 * List.length l)%nat.
Proof.
  destruct l as [|p t]; simpl; [reflexivity|].
  rewrite midstep_from_length. lia.
Qed.

(** There is one segment less than points. *)
Lemma segments_length (xy : point) (artist_xys : list point) :
  List.length (segments xy artist_xys) = (List.length artist_xys - 1)%nat.
Proof.
  unfold segments, consecutive.
  rewrite length_map, length_combine, length_tl, removelast_firstn_len,
    length_firstn.
  lia.
Qed.

(** Where the squared distance is a number and the event position is
    finite, the offset [dot / ds] passed to the encoder lies in [[0, 1]]. *)
Lemma segment_fraction (x y : R) (p0 p1 : point) (v : R) :
  seg_d2s (segment (Fin x, Fin y) p0 p1) = Fin v ->
  exists f,
    fdiv (seg_dot (segment (Fin x, Fin y) p0 p1))
         (seg_ds (segment (Fin x, Fin y) p0 p1)) = Fin f
    /\ 0 <= f <= 1.
Proof.
  intros Hv.
  destruct (finite_distance_nonzero_length _ _ _ Hv) as [d [Hd Hd0]].
  destruct (segment_length_finite _ _ _ Hd)
    as [a0 [b0 [a1 [b1 [-> [-> Hsqrt]]]]]].
  assert (Hd' : sqrt ((a1 - a0) * (a1 - a0) + (b1 - b0) * (b1 - b0)) <> 0)
    by (rewrite <- Hsqrt; assumption).
  destruct (segment_clamped x y a0 b0 a1 b1 Hd') as [_ [t [Hdot [Ht _]]]].
  rewrite <- Hsqrt in Ht.
  rewrite Hdot, Hd, fdiv_Fin by assumption.
  exists (t / d). split; [reflexivity|].
  assert (Hpos : 0 < d).
  { pose proof (sqrt_pos ((a1 - a0) * (a1 - a0) + (b1 - b0) * (b1 - b0))).
    rewrite <- Hsqrt in H. lra. }
  split.
  - apply Rmult_le_pos; [lra|]. left. apply Rinv_0_lt_compat. assumption.
  - apply Rmult_le_reg_r with d; [assumption|].
    unfold Rdiv. rewrite Rmult_assoc, Rinv_l by assumption. lra.
Qed.

(** A pick on the line of a step-mid plot under an affine transform
    carries an [Index] whose floor is the position of one of the data
    points. *)
Lemma step_mid_pick_floor_in_range (l : Line2D) (event : Event)
      (sel : Selection) :
  get_drawstyle l = draw_steps_mid ->
  is_affine (get_transform l) = true ->
  line_candidate l event = Ok sel ->
  exists idx,
    index (target sel) = Some (ObjIndex idx)
    /\ (0 <= Index.floor idx < Z.of_nat (List.length (get_xydata l)))%Z.
Proof.
  intros Hstyle Haff. unfold line_candidate. cbv zeta.
  destruct (nanargmin _) as [k|e] eqn:Hk; [|discriminate].
  cbn [bind]. intros H. injection H as <-. cbn [target index].
  rewrite Haff, Hstyle. cbn [encode_index].
  pose proof (nanargmin_spec
                (map seg_d2s (segments (event_xy event) (line_artist_xys l))))
    as S.
  rewrite Hk in S. destruct S as [v [Hv _]].
  rewrite nth_error_map in Hv.
  destruct (nth_error (segments (event_xy event) (line_artist_xys l)) k)
    as [s|] eqn:Hs; [|discriminate].
  cbn [option_map] in Hv. injection Hv as Hv.
  rewrite (nth_error_nth _ _ nan_segment Hs).
  assert (Hklt : (k < List.length (line_artist_xys l) - 1)%nat).
  { rewrite <- (segments_length (event_xy event)).
    apply nth_error_Some. rewrite Hs. discriminate. }
  assert (Hlen : List.length (line_artist_xys l)
                 = (2 * List.length (get_xydata l))%nat).
  { unfold line_artist_xys. rewrite Haff, Hstyle. cbn [drawstyle_conv].
    rewrite length_map. apply pts_to_midstep_length. }
  apply nth_error_In in Hs.
  destruct (in_segments _ _ _ Hs) as [p0 [p1 [_ ->]]].
  unfold event_xy in *.
  destruct (segment_fraction _ _ _ _ Hv) as [f [-> Hf]].
  eexists. split; [reflexivity|].
  pose proof (@mid_index_floor_bounds
                (Z.of_nat (List.length (line_artist_xys l)))
                (Z.of_nat k) f) as B.
  rewrite Hlen in *.
  replace (Z.of_nat (2 * List.length (get_xydata l)) / 2)%Z
    with (Z.of_nat (List.length (get_xydata l))) in B.
  - apply B; [lia | lia | assumption].
  - rewrite Nat2Z.inj_mul. change (Z.of_nat 2) with 2%Z.
    rewrite Z.mul_comm, Z.div_mul by lia. reflexivity.
Qed.

(* ================================================================== *)
(** * Further properties of the module *)

(** ** The Index class *)

Lemma py_max_nonneg_zero (a b : R) :
  0 <= a -> 0 <= b ->
  (feqb (py_max (Fin a) (Fin b)) zero = true <-> a = 0 /\ b = 0).
Proof.
  intros Ha Hb. unfold py_max, fltb, zero.
  destruct (Rlt_dec a b) as [Hlt|Hge]; unfold feqb.
  - destruct (Req_dec_T b 0) as [E|E].
    + exfalso. lra.
    + split; [discriminate | intros [_ H]; contradiction].
  - destruct (Req_dec_T a 0) as [E|E].
    + split; [intros _; split; lra | reflexivity].
    + split; [discriminate | intros [H _]; contradiction].
Qed.

(** X1: [ceil] is [floor] or [floor + 1]; on coordinates that are
    non-negative numbers it is [floor] exactly when both are 0, that is
    when the position is the floor vertex itself. *)
Theorem index_ceil_brackets_floor (self : Index.t) (a b : R) :
  Index.x self = Fin a -> Index.y self = Fin b -> 0 <= a -> 0 <= b ->
  (Index.floor self <= Index.ceil self <= Index.floor self + 1)%Z
  /\ (Index.ceil self = Index.floor self <-> a = 0 /\ b = 0).
Proof.
  intros Hx Hy Ha Hb. unfold Index.ceil, Index.floor. rewrite Hx, Hy.
  pose proof (py_max_nonneg_zero Ha Hb) as M.
  destruct (feqb (py_max (Fin a) (Fin b)) zero).
  - split; [lia|]. split; [intros _; apply M; reflexivity | reflexivity].
  - split; [lia|]. split; [lia|].
    intros H. apply M in H. discriminate.
Qed.

Lemma index_ceil_brackets_floor_witness :
  (Index.floor (Index.cls 3 (Fin (1 / 4)) one)
   <= Index.ceil (Index.cls 3 (Fin (1 / 4)) one)
   <= Index.floor (Index.cls 3 (Fin (1 / 4)) one) + 1)%Z
  /\ (Index.ceil (Index.cls 3 (Fin (1 / 4)) one)
      = Index.floor (Index.cls 3 (Fin (1 / 4)) one)
      <-> 1 / 4 = 0 /\ 1 = 0).
Proof.
  apply (@index_ceil_brackets_floor (Index.cls 3 (Fin (1 / 4)) one)
                                    (1 / 4) 1);
    [reflexivity | reflexivity | lra | lra].
Defined.

Lemma unit_coord_Fin (r : R) : 0 <= r <= 1 -> unit_coord (Fin r).
Proof. intros H. exists r. split; [reflexivity | assumption]. Qed.

Lemma mid_rescale_unit (n_pts raw_index : Z) (r : R) :
  0 <= r <= 1 ->
  exists r', Index.mid_rescale n_pts raw_index (Fin r) = Fin r'
             /\ 0 <= r' <= 1.
Proof.
  intros Hr. unfold Index.mid_rescale, half, two.
  rewrite fdiv_Fin by lra.
  destruct (raw_index =? 0)%Z; [|destruct (raw_index =? n_pts - 2)%Z].
  - eexists. split; [reflexivity|]. lra.
  - eexists. split; [reflexivity|]. lra.
  - eexists. split; [reflexivity|]. lra.
Qed.

(** X2: for an offset in [[0, 1]], the three step encoders return an index
    whose [x] and [y] are numbers of [[0, 1]], whatever the raw segment
    index and the point count. *)
Theorem encoders_keep_unit_coords (n_pts raw_index : Z) (r : R) :
  0 <= r <= 1 ->
  (unit_coord (Index.x (Index.pre_index n_pts raw_index (Fin r)))
   /\ unit_coord (Index.y (Index.pre_index n_pts raw_index (Fin r))))
  /\ (unit_coord (Index.x (Index.post_index n_pts raw_index (Fin r)))
      /\ unit_coord (Index.y (Index.post_index n_pts raw_index (Fin r))))
  /\ (unit_coord (Index.x (Index.mid_index n_pts raw_index (Fin r)))
      /\ unit_coord (Index.y (Index.mid_index n_pts raw_index (Fin r)))).
Proof.
  intros Hr.
  assert (H0 : unit_coord zero) by (apply unit_coord_Fin; lra).
  assert (H1 : unit_coord one) by (apply unit_coord_Fin; lra).
  assert (Hf : unit_coord (Fin r)) by (apply unit_coord_Fin; assumption).
  split; [|split].
  - unfold Index.pre_index, Index.divmod2.
    destruct (raw_index mod 2 =? 0)%Z; cbn [Index.x Index.y]; auto.
  - unfold Index.post_index, Index.divmod2.
    destruct (raw_index mod 2 =? 0)%Z; cbn [Index.x Index.y]; auto.
  - unfold Index.mid_index.
    destruct (mid_rescale_unit n_pts raw_index Hr) as [r' [-> Hr']].
    unfold Index.mid_split, Index.divmod2, half.
    destruct (raw_index mod 2 =? 0)%Z.
    + unfold fltb. destruct (Rlt_dec r' (1 / 2)); cbn [Index.x Index.y];
        (split; [apply unit_coord_Fin; lra | assumption]).
    + cbn [Index.x Index.y].
      split; apply unit_coord_Fin; [lra | assumption].
Qed.

Lemma encoders_keep_unit_coords_witness :
  unit_coord (Index.x (Index.mid_index 10 4 (Fin (1 / 4))))
  /\ unit_coord (Index.y (Index.mid_index 10 4 (Fin (1 / 4)))).
Proof.
  apply (@encoders_keep_unit_coords 10 4 (1 / 4)). lra.
Defined.

Lemma succ_even_divmod (raw_index : Z) :
  (raw_index mod 2 = 0 ->
   (raw_index + 1) / 2 = raw_index / 2 /\ (raw_index + 1) mod 2 = 1)%Z.
Proof.
  intros H. pose proof (Z.div_mod raw_index 2 ltac:(lia)) as E.
  split.
  - symmetry. apply (Z.div_unique _ _ _ 1); lia.
  - symmetry. apply (Z.mod_unique _ _ (raw_index / 2)); lia.
Qed.

Lemma succ_odd_divmod (raw_index : Z) :
  (raw_index mod 2 <> 0 ->
   (raw_index + 1) / 2 = raw_index / 2 + 1 /\ (raw_index + 1) mod 2 = 0)%Z.
Proof.
  intros H. pose proof (Z.div_mod raw_index 2 ltac:(lia)) as E.
  pose proof (Z.mod_pos_bound raw_index 2 ltac:(lia)) as B.
  split.
  - symmetry. apply (Z.div_unique _ _ _ 0); lia.
  - symmetry. apply (Z.mod_unique _ _ (raw_index / 2 + 1)); lia.
Qed.

(** X3: step-before and step-after are continuous at the corner of a step:
    the end (offset 1) of an even raw segment and the start (offset 0) of
    the odd segment that follows are encoded by the same index. *)
Theorem step_corner_has_one_index (n_pts raw_index : Z) :
  (raw_index mod 2 = 0)%Z ->
  Index.pre_index n_pts raw_index one
  = Index.pre_index n_pts (raw_index + 1) zero
  /\ Index.post_index n_pts raw_index one
     = Index.post_index n_pts (raw_index + 1) zero.
Proof.
  intros H. destruct (succ_even_divmod _ H) as [Hq Hm].
  unfold Index.pre_index, Index.post_index, Index.divmod2.
  rewrite H, Hq, Hm. split; reflexivity.
Qed.

Lemma step_corner_has_one_index_witness :
  Index.pre_index 9 4 one = Index.pre_index 9 (4 + 1) zero
  /\ Index.post_index 9 4 one = Index.post_index 9 (4 + 1) zero.
Proof.
  apply (@step_corner_has_one_index 9 4). reflexivity.
Defined.

Lemma mid_rescale_end (n_pts raw_index : Z) :
  raw_index <> (n_pts - 2)%Z \/ raw_index = 0%Z ->
  Index.mid_rescale n_pts raw_index one = one.
Proof.
  intros H. unfold Index.mid_rescale, one, half, two.
  rewrite fdiv_Fin by lra.
  destruct (Z.eqb_spec raw_index 0).
  - unfold fadd, lift2. f_equal. lra.
  - destruct (Z.eqb_spec raw_index (n_pts - 2)); [|reflexivity].
    destruct H; contradiction.
Qed.

Lemma mid_rescale_start (n_pts raw_index : Z) :
  raw_index <> 0%Z ->
  Index.mid_rescale n_pts raw_index zero = zero.
Proof.
  intros H. unfold Index.mid_rescale, zero, half, two.
  rewrite fdiv_Fin by lra.
  destruct (Z.eqb_spec raw_index 0); [contradiction|].
  destruct (Z.eqb_spec raw_index (n_pts - 2)); [|reflexivity].
  f_equal. lra.
Qed.

Lemma mid_split_junction (raw_index : Z) :
  Index.mid_split raw_index one = Index.mid_split (raw_index + 1) zero.
Proof.
  unfold Index.mid_split, Index.divmod2.
  destruct (Z.eqb_spec (raw_index mod 2) 0) as [H|H].
  - destruct (succ_even_divmod _ H) as [-> ->].
    change (1 =? 0)%Z with false. cbv iota.
    unfold one, half, zero. rewrite fltb_Fin_false by lra.
    unfold fsub, lift2. f_equal. f_equal. lra.
  - destruct (succ_odd_divmod _ H) as [-> ->].
    change (0 =? 0)%Z with true. cbv iota.
    unfold one, half, zero. rewrite fltb_Fin_true by lra.
    unfold fadd, lift2. f_equal.
    + lia.
    + f_equal. lra.
Qed.

(** X4: step-mid is continuous at every junction of two consecutive raw
    segments, the rescaled boundary segments included: the end of a
    segment and the start of the next one are encoded by the same index. *)
Theorem step_mid_junction_has_one_index (n_pts raw_index : Z) :
  (0 <= raw_index)%Z -> (raw_index + 1 <= n_pts - 2)%Z ->
  Index.mid_index n_pts raw_index one
  = Index.mid_index n_pts (raw_index + 1) zero.
Proof.
  intros H0 Hn. unfold Index.mid_index.
  rewrite mid_rescale_end by lia.
  rewrite mid_rescale_start by lia.
  apply mid_split_junction.
Qed.

Lemma step_mid_junction_has_one_index_witness :
  Index.mid_index 10 0 one = Index.mid_index 10 (0 + 1) zero
  /\ Index.mid_index 10 7 one = Index.mid_index 10 (7 + 1) zero.
Proof.
  split; apply step_mid_junction_has_one_index; lia.
Defined.

(** X5: the step-before and step-after encoders lose nothing: two raw
    positions with the same index are the same position, or the two sides
    of the corner of a step (end of an even segment, start of the next). *)
Theorem step_index_determines_position (n1 n2 r1 r2 : Z) (f1 f2 : R) :
  Index.pre_index n1 r1 (Fin f1) = Index.pre_index n2 r2 (Fin f2)
  \/ Index.post_index n1 r1 (Fin f1) = Index.post_index n2 r2 (Fin f2) ->
  (r1 = r2 /\ f1 = f2)
  \/ ((r1 mod 2 = 0)%Z /\ r2 = (r1 + 1)%Z /\ f1 = 1 /\ f2 = 0)
  \/ ((r2 mod 2 = 0)%Z /\ r1 = (r2 + 1)%Z /\ f2 = 1 /\ f1 = 0).
Proof.
  pose proof (Z.div_mod r1 2 ltac:(lia)) as E1.
  pose proof (Z.div_mod r2 2 ltac:(lia)) as E2.
  pose proof (Z.mod_pos_bound r1 2 ltac:(lia)) as B1.
  pose proof (Z.mod_pos_bound r2 2 ltac:(lia)) as B2.
  unfold Index.pre_index, Index.post_index, Index.divmod2, zero, one.
  destruct (Z.eqb_spec (r1 mod 2) 0) as [H1|H1];
    destruct (Z.eqb_spec (r2 mod 2) 0) as [H2|H2];
    intros [H|H]; injection H; intros;
    try (left; split; [lia | lra]);
    try (right; left; repeat split; [assumption | lia | lra | lra]);
    try (right; right; repeat split; [assumption | lia | lra | lra]).
Qed.

Lemma step_index_determines_position_witness :
  ((4 = 5)%Z /\ 1 = 0)
  \/ ((4 mod 2 = 0)%Z /\ (5 = 4 + 1)%Z /\ 1 = 1 /\ 0 = 0)
  \/ ((5 mod 2 = 0)%Z /\ (4 = 5 + 1)%Z /\ 0 = 1 /\ 1 = 0).
Proof.
  apply (@step_index_determines_position 9 9 4 5 1 0).
  left. reflexivity.
Defined.

(** ** More on moving along a line *)

Lemma Rfloor_spec (r : R) : IZR (Rfloor r) <= r < IZR (Rfloor r) + 1.
Proof.
  unfold Rfloor. destruct (base_Int_part r) as [H1 H2]. lra.
Qed.

Lemma Rceil_spec (r : R) : IZR (Rceil r) - 1 < r <= IZR (Rceil r).
Proof.
  unfold Rceil. rewrite opp_IZR.
  destruct (base_Int_part (- r)) as [H1 H2]. lra.
Qed.

Lemma line_candidate_shape (l : Line2D) (event : Event) (sel : Selection) :
  line_candidate l event = Ok sel ->
  artist sel = ALine2D l
  /\ (is_affine (get_transform l) = false -> index (target sel) = None).
Proof.
  unfold line_candidate. cbv zeta.
  destruct (nanargmin _) as [k|e]; [|discriminate].
  cbn [bind]. intros H. injection H as <-. cbn [artist target index].
  split; [reflexivity|]. intros ->. reflexivity.
Qed.

(** The squared distance to a segment between two distinct finite points
    is a number. *)
Lemma segment_distance_finite (x y a0 b0 a1 b1 : R) :
  sqrt ((a1 - a0) * (a1 - a0) + (b1 - b0) * (b1 - b0)) <> 0 ->
  exists v,
    seg_d2s (segment (Fin x, Fin y) (Fin a0, Fin b0) (Fin a1, Fin b1))
    = Fin v.
Proof.
  intros Hd.
  destruct (segment_clamped x y a0 b0 a1 b1 Hd) as [_ [t [_ [_ Hp]]]].
  unfold segment in *. cbn [seg_d2s seg_projs] in *. rewrite Hp.
  eexists. reflexivity.
Qed.

(** The line branch returns a candidate as soon as one segment of the
    polyline has a finite distance to the event. *)
Lemma line_candidate_returns (l : Line2D) (event : Event) (s : Segment)
      (v : R) :
  In s (segments (event_xy event) (line_artist_xys l)) ->
  seg_d2s s = Fin v ->
  exists sel, line_candidate l event = Ok sel.
Proof.
  intros Hin Hv. unfold line_candidate. cbv zeta.
  pose proof (nanargmin_spec
                (map seg_d2s (segments (event_xy event) (line_artist_xys l))))
    as S.
  destruct (nanargmin _) as [k|e].
  - cbn [bind]. eexists. reflexivity.
  - exfalso. destruct S as [_ Hall]. rewrite Forall_forall in Hall.
    assert (Hx : In (seg_d2s s)
                    (map seg_d2s (segments (event_xy event)
                                           (line_artist_xys l))))
      by (apply in_map; assumption).
    apply Hall in Hx. congruence.
Qed.

(** X6: a selection picked on a line under a non-affine transform carries
    no index, and [move] returns it unchanged for every key. *)
Theorem non_affine_pick_does_not_move (l : Line2D) (event : Event)
        (sel : Selection) (key : string) :
  is_affine (get_transform l) = false ->
  line_candidate l event = Ok sel ->
  index (target sel) = None /\ move sel key = Ok sel.
Proof.
  intros Haff Hc. destruct (line_candidate_shape _ _ Hc) as [Ha Hi].
  specialize (Hi Haff). split; [assumption|].
  unfold move. rewrite Ha. unfold move_Line2D. rewrite Hi. reflexivity.
Qed.

Lemma curved_line_candidate :
  exists sel, line_candidate curved_line origin_event = Ok sel.
Proof.
  assert (Hd : sqrt ((3 - 0) * (3 - 0) + (4 - 0) * (4 - 0)) <> 0).
  { intros H. apply sqrt_eq_0 in H; lra. }
  destruct (segment_distance_finite 0 0 0 0 3 4 Hd) as [v Hv].
  apply (@line_candidate_returns curved_line origin_event
           (segment (Fin 0, Fin 0) (pt 0 0) (pt 3 4)) v);
    [left; reflexivity | exact Hv].
Qed.

Lemma non_affine_pick_does_not_move_witness :
  exists sel,
    line_candidate curved_line origin_event = Ok sel
    /\ index (target sel) = None /\ move sel "left" = Ok sel.
Proof.
  destruct curved_line_candidate as [sel Hsel].
  exists sel. split; [exact Hsel|].
  apply (@non_affine_pick_does_not_move curved_line origin_event sel "left");
    [reflexivity | exact Hsel].
Defined.

(** X7: on an image, a key that is not an arrow key is a [KeyError] when
    the image is an exact [AxesImage], whatever the target; on an image of
    a subclass the selection is returned unchanged before the key is looked
    up. *)
Theorem image_move_unknown_key (im : AxesImage) (sel : Selection)
        (key : string) :
  artist sel = AAxesImage im ->
  ~ In key ["left"; "right"; "up"; "down"]%string ->
  move sel key = if im_exact im then Raise KeyError else Ok sel.
Proof.
  intros Ha Hk. unfold move. rewrite Ha. unfold move_AxesImage.
  destruct (im_exact im); cbn [negb]; [|reflexivity].
  destruct (get_extent im) as [[[x0 x1] y0] y1].
  assert (E : key_step key = Raise KeyError).
  { unfold key_step.
    destruct (String.eqb_spec key "left"); [subst; simpl in Hk; tauto|].
    destruct (String.eqb_spec key "right"); [subst; simpl in Hk; tauto|].
    destruct (String.eqb_spec key "up"); [subst; simpl in Hk; tauto|].
    destruct (String.eqb_spec key "down"); [subst; simpl in Hk; tauto|].
    reflexivity. }
  rewrite E. reflexivity.
Qed.

Lemma image_move_unknown_key_witness :
  move (image_selection 1 1) "enter" = Raise KeyError
  /\ move irregular_selection "enter" = Ok irregular_selection.
Proof.
  split.
  - apply (@image_move_unknown_key small_image (image_selection 1 1)
                                   "enter"); [reflexivity|].
    simpl. intros [H|[H|[H|[H|[]]]]]; discriminate.
  - apply (@image_move_unknown_key irregular_image irregular_selection
                                   "enter"); [reflexivity|].
    simpl. intros [H|[H|[H|[H|[]]]]]; discriminate.
Defined.

(** X8: on a line with at least one point, from an integer index, [right]
    then [left] and [left] then [right] both come back to the same index
    and to its vertex, at distance 0. *)
Theorem line_right_left_inverse (l : Line2D) (sel : Selection) (z : Z) :
  artist sel = ALine2D l -> index (target sel) = Some (IntIndex z) ->
  get_xydata l <> [] ->
  let n := Z.of_nat (List.length (get_xydata l)) in
  let back :=
    mkSelection (artist sel)
      (AttrArray (nth (Z.to_nat (z mod n)) (get_xydata l) nan_point)
                 (Some (IntIndex z)))
      (Fin 0) (annotation sel) (extras sel) in
  (exists s1, move sel "right" = Ok s1 /\ move s1 "left" = Ok back)
  /\ (exists s1, move sel "left" = Ok s1 /\ move s1 "right" = Ok back).
Proof.
  intros Ha Hi Hne n back.
  destruct (@move_line_left_right l sel (IntIndex z) z z Ha Hi
                                  eq_refl eq_refl Hne) as [Hl [Hr _]].
  split.
  - eexists. split; [exact Hr|].
    match goal with |- move ?s _ = _ =>
      destruct (@move_line_left_right l s (IntIndex (z + 1)) (z + 1) (z + 1)
                                      Ha eq_refl eq_refl eq_refl Hne)
        as [Hl' _] end.
    rewrite Hl'. cbn [artist annotation extras]. subst back n.
    replace (z + 1 - 1)%Z with z by lia. reflexivity.
  - eexists. split; [exact Hl|].
    match goal with |- move ?s _ = _ =>
      destruct (@move_line_left_right l s (IntIndex (z - 1)) (z - 1) (z - 1)
                                      Ha eq_refl eq_refl eq_refl Hne)
        as [_ [Hr' _]] end.
    rewrite Hr'. cbn [artist annotation extras]. subst back n.
    replace (z - 1 + 1)%Z with z by lia. reflexivity.
Qed.

Lemma line_right_left_inverse_witness :
  (exists s1,
      move (selection_at straight_line (pt 4 4) (IntIndex 4)) "right" = Ok s1
      /\ move s1 "left"
         = Ok (mkSelection (ALine2D straight_line)
                           (AttrArray (pt 4 4) (Some (IntIndex 4)))
                           (Fin 0) None None))
  /\ (exists s1,
         move (selection_at straight_line (pt 4 4) (IntIndex 4)) "left"
         = Ok s1
         /\ move s1 "right"
            = Ok (mkSelection (ALine2D straight_line)
                              (AttrArray (pt 4 4) (Some (IntIndex 4)))
                              (Fin 0) None None)).
Proof.
  apply (@line_right_left_inverse straight_line
           (selection_at straight_line (pt 4 4) (IntIndex 4)) 4);
    [reflexivity | reflexivity | discriminate].
Defined.

Lemma move_times_right_line (l : Line2D) (k : nat) :
  get_xydata l <> [] ->
  forall (sel : Selection) (z : Z),
    artist sel = ALine2D l -> index (target sel) = Some (IntIndex z) ->
    let n := Z.of_nat (List.length (get_xydata l)) in
    let z' := (z + Z.of_nat (S k))%Z in
    move_times (S k) "right" sel =
    Ok (mkSelection (artist sel)
          (AttrArray (nth (Z.to_nat (z' mod n)) (get_xydata l) nan_point)
                     (Some (IntIndex z')))
          (Fin 0) (annotation sel) (extras sel)).
Proof.
  intros Hne. induction k as [|k IH]; intros sel z Ha Hi n z'.
  - destruct (@move_line_left_right l sel (IntIndex z) z z Ha Hi
                                    eq_refl eq_refl Hne) as [_ [Hr _]].
    cbn [move_times]. rewrite Hr. cbn [bind]. reflexivity.
  - destruct (@move_line_left_right l sel (IntIndex z) z z Ha Hi
                                    eq_refl eq_refl Hne) as [_ [Hr _]].
    change (move_times (S (S k)) "right" sel)
      with (s <- move sel "right" ;; move_times (S k) "right" s).
    rewrite Hr. cbn [bind].
    match goal with |- move_times _ _ ?s = _ =>
      rewrite (IH s (z + 1)%Z Ha eq_refl) end.
    cbn [artist annotation extras]. subst z' n.
    replace (z + 1 + Z.of_nat (S k))%Z with (z + Z.of_nat (S (S k)))%Z
      by lia.
    reflexivity.
Qed.

(** X9: the vertices of a line are visited cyclically: from an integer
    index [z] on a line of [n >= 1] points, [n] presses of [right] lead
    back to the vertex of [z]; the index itself is not wrapped and is then
    [z + n]. *)
Theorem line_right_is_cyclic (l : Line2D) (sel : Selection) (z : Z) :
  artist sel = ALine2D l -> index (target sel) = Some (IntIndex z) ->
  get_xydata l <> [] ->
  let n := List.length (get_xydata l) in
  move_times n "right" sel =
  Ok (mkSelection (artist sel)
        (AttrArray (nth (Z.to_nat (z mod Z.of_nat n)) (get_xydata l)
                        nan_point)
                   (Some (IntIndex (z + Z.of_nat n))))
        (Fin 0) (annotation sel) (extras sel)).
Proof.
  intros Ha Hi Hne n.
  destruct n as [|k] eqn:Hn.
  - subst n. destruct (get_xydata l); [contradiction | discriminate].
  - pose proof (@move_times_right_line l k Hne sel z Ha Hi) as H.
    cbv zeta in H. subst n. rewrite Hn in H. rewrite H.
    replace ((z + Z.of_nat (S k)) mod Z.of_nat (S k))%Z
      with (z mod Z.of_nat (S k))%Z; [reflexivity|].
    rewrite <- (Z.mul_1_l (Z.of_nat (S k))) at 2.
    symmetry. apply Z.mod_add. lia.
Qed.

Lemma line_right_is_cyclic_witness :
  move_times 5 "right" (selection_at straight_line (pt 2 2) (IntIndex 2))
  = Ok (mkSelection (ALine2D straight_line)
                    (AttrArray (pt 2 2) (Some (IntIndex (2 + 5))))
                    (Fin 0) None None).
Proof.
  apply (@line_right_is_cyclic straight_line
           (selection_at straight_line (pt 2 2) (IntIndex 2)) 2);
    [reflexivity | reflexivity | discriminate].
Defined.

(** X10: from a float index [r] (a pick on a direct-style line), [left]
    goes to the nearest vertex index strictly below [r] and [right] to the
    nearest one strictly above: a press always leaves the current
    position, also when [r] is itself an integer. *)
Theorem float_index_moves_strictly (l : Line2D) (sel : Selection) (r : R) :
  artist sel = ALine2D l ->
  index (target sel) = Some (FloatIndex (Fin r)) ->
  get_xydata l <> [] ->
  exists zl zr sl sr,
    move sel "left" = Ok sl /\ index (target sl) = Some (IntIndex zl)
    /\ IZR zl < r <= IZR zl + 1
    /\ move sel "right" = Ok sr /\ index (target sr) = Some (IntIndex zr)
    /\ IZR zr - 1 <= r < IZR zr.
Proof.
  intros Ha Hi Hne.
  destruct (@move_line_left_right l sel (FloatIndex (Fin r))
                                  (Rceil r) (Rfloor r) Ha Hi
                                  eq_refl eq_refl Hne) as [Hl [Hr _]].
  pose proof (Rceil_spec r) as C. pose proof (Rfloor_spec r) as F.
  exists (Rceil r - 1)%Z, (Rfloor r + 1)%Z. eexists. eexists.
  split; [exact Hl|]. split; [reflexivity|].
  split; [rewrite minus_IZR; lra|].
  split; [exact Hr|]. split; [reflexivity|].
  rewrite plus_IZR. lra.
Qed.

Lemma float_index_moves_strictly_witness :
  exists zl zr sl sr,
    move (selection_at straight_line (pt (1 / 2) (1 / 2))
                       (FloatIndex (Fin (1 / 2)))) "left" = Ok sl
    /\ index (target sl) = Some (IntIndex zl)
    /\ IZR zl < 1 / 2 <= IZR zl + 1
    /\ move (selection_at straight_line (pt (1 / 2) (1 / 2))
                          (FloatIndex (Fin (1 / 2)))) "right" = Ok sr
    /\ index (target sr) = Some (IntIndex zr)
    /\ IZR zr - 1 <= 1 / 2 < IZR zr.
Proof.
  apply (@float_index_moves_strictly straight_line
           (selection_at straight_line (pt (1 / 2) (1 / 2))
                         (FloatIndex (Fin (1 / 2)))) (1 / 2));
    [reflexivity | reflexivity | discriminate].
Defined.

(** X11: on a line whose data has become empty, [left] and [right] raise
    [ZeroDivisionError] from an index that is a number: the new integer
    index is reduced modulo a length of 0. *)
Theorem move_on_emptied_line_raises (l : Line2D) (sel : Selection)
        (i : index_value) :
  artist sel = ALine2D l -> index (target sel) = Some i ->
  i <> FloatIndex NaN ->
  get_xydata l = [] ->
  move sel "left" = Raise ZeroDivisionError
  /\ move sel "right" = Raise ZeroDivisionError.
Proof.
  intros Ha Hi Hn He. unfold move. rewrite Ha. unfold move_Line2D.
  rewrite Hi, He. unfold new_index. cbn [String.eqb Ascii.eqb Bool.eqb].
  destruct i as [z | [r|] | o]; try contradiction; split; reflexivity.
Qed.

Lemma move_on_emptied_line_raises_witness :
  move emptied_line_selection "left" = Raise ZeroDivisionError
  /\ move emptied_line_selection "right" = Raise ZeroDivisionError.
Proof.
  apply (@move_on_emptied_line_raises empty_line emptied_line_selection
                                      (IntIndex 2));
    [reflexivity | reflexivity | discriminate | reflexivity].
Defined.

(** ** More on moving over an image *)

Lemma to_cell_Fin (t l h : R) (n : Z) :
  l <> h ->
  to_cell (Fin t) (Fin l) (Fin h) n = Rtrunc ((t - l) / (h - l) * IZR n).
Proof.
  intros Hlh. unfold to_cell, of_Z, fsub, lift2.
  rewrite fdiv_Fin by lra. reflexivity.
Qed.

(** A position whose fractional array index lies in [[i, i + 1)] belongs to
    cell [i]. *)
Lemma to_cell_inside (t l h : R) (n i : Z) :
  l <> h -> (0 <= i)%Z ->
  IZR i <= (t - l) / (h - l) * IZR n < IZR i + 1 ->
  to_cell (Fin t) (Fin l) (Fin h) n = i.
Proof.
  intros Hlh Hi Hin. rewrite to_cell_Fin by assumption.
  apply IZR_le in Hi. unfold Rtrunc.
  destruct (Rlt_dec _ 0); [lra|].
  unfold Rfloor. symmetry. apply Int_part_spec. lra.
Qed.




Lemma wrap_back (i d n : Z) :
  (0 <= i < n)%Z -> (((i + d) mod n + - d) mod n = i)%Z.
Proof.
  intros Hi. rewrite Zplus_mod_idemp_l.
  replace (i + d + - d)%Z with i by lia.
  apply Z.mod_small. assumption.
Qed.

(** Two keys with opposite steps, pressed from the centre of a cell, lead
    back to it. *)
Lemma image_opposite_steps (im : AxesImage) (sel : Selection)
      (k1 k2 : string) (x0 x1 y0 y1 : R) (rows cols i j dx dy : Z) :
  artist sel = AAxesImage im -> im_exact im = true ->
  get_extent im = (Fin x0, Fin x1, Fin y0, Fin y1) ->
  x0 <> x1 -> y0 <> y1 ->
  shape im = (rows, cols) ->
  (0 <= i < cols)%Z -> (0 <= j < rows)%Z ->
  coords (target sel) = (cell_center i (Fin x0) (Fin x1) cols,
                         cell_center j (Fin y0) (Fin y1) rows) ->
  key_step k1 = Ok (dx, dy) -> key_step k2 = Ok ((- dx)%Z, (- dy)%Z) ->
  exists s1 s2,
    move sel k1 = Ok s1 /\ move s1 k2 = Ok s2
    /\ coords (target s2) = coords (target sel).
Proof.
  intros Ha He Hx Hx01 Hy01 Hs Hi Hj Hc H1 H2.
  pose proof (@move_image_cell im sel k1 x0 x1 y0 y1 rows cols i j dx dy
                               Ha He Hx Hx01 Hy01 Hs Hi Hj Hc H1) as M1.
  match type of M1 with _ = Ok ?s => set (s1 := s) in * end.
  assert (Hi1 : (0 <= (i + dx) mod cols < cols)%Z)
    by (apply Z.mod_pos_bound; lia).
  assert (Hj1 : (0 <= (j + dy) mod rows < rows)%Z)
    by (apply Z.mod_pos_bound; lia).
  pose proof (@move_image_cell im s1 k2 x0 x1 y0 y1 rows cols
                               ((i + dx) mod cols) ((j + dy) mod rows)
                               (- dx) (- dy)
                               Ha He Hx Hx01 Hy01 Hs Hi1 Hj1 eq_refl H2)
    as M2.
  rewrite !wrap_back in M2 by assumption.
  exists s1. eexists. split; [exact M1|]. split; [exact M2|].
  cbn [target coords]. symmetry. exact Hc.
Qed.

(** X13: on an exact image, from the centre of any cell, [up] then [down],
    [down] then [up] and [left] then [right] each come back to the same
    target, across the wrap boundary of the rows or columns as well. *)
Theorem image_arrow_pairs_inverse (im : AxesImage) (sel : Selection)
        (x0 x1 y0 y1 : R) (rows cols i j : Z) :
  artist sel = AAxesImage im -> im_exact im = true ->
  get_extent im = (Fin x0, Fin x1, Fin y0, Fin y1) ->
  x0 <> x1 -> y0 <> y1 ->
  shape im = (rows, cols) ->
  (0 <= i < cols)%Z -> (0 <= j < rows)%Z ->
  coords (target sel) = (cell_center i (Fin x0) (Fin x1) cols,
                         cell_center j (Fin y0) (Fin y1) rows) ->
  (exists s1 s2, move sel "up" = Ok s1 /\ move s1 "down" = Ok s2
                 /\ coords (target s2) = coords (target sel))
  /\ (exists s1 s2, move sel "down" = Ok s1 /\ move s1 "up" = Ok s2
                    /\ coords (target s2) = coords (target sel))
  /\ (exists s1 s2, move sel "left" = Ok s1 /\ move s1 "right" = Ok s2
                    /\ coords (target s2) = coords (target sel)).
Proof.
  intros Ha He Hx Hx01 Hy01 Hs Hi Hj Hc.
  split; [|split].
  - apply (@image_opposite_steps im sel "up" "down" x0 x1 y0 y1 rows cols
                                 i j 0 1); auto.
  - apply (@image_opposite_steps im sel "down" "up" x0 x1 y0 y1 rows cols
                                 i j 0 (-1)); auto.
  - apply (@image_opposite_steps im sel "left" "right" x0 x1 y0 y1 rows cols
                                 i j (-1) 0); auto.
Qed.

Lemma image_arrow_pairs_inverse_witness :
  (exists s1 s2, move (image_selection 0 1) "up" = Ok s1
                 /\ move s1 "down" = Ok s2
                 /\ coords (target s2) = coords (target (image_selection 0 1)))
  /\ (exists s1 s2, move (image_selection 0 1) "down" = Ok s1
                    /\ move s1 "up" = Ok s2
                    /\ coords (target s2)
                       = coords (target (image_selection 0 1)))
  /\ (exists s1 s2, move (image_selection 0 1) "left" = Ok s1
                    /\ move s1 "right" = Ok s2
                    /\ coords (target s2)
                       = coords (target (image_selection 0 1))).
Proof.
  apply (@image_arrow_pairs_inverse small_image (image_selection 0 1)
                                    0 3 0 2 2 3 0 1);
    try reflexivity; try lra; try lia.
Defined.

Lemma move_times_right_image (im : AxesImage) (x0 x1 y0 y1 : R)
      (rows cols j : Z) (k : nat) :
  im_exact im = true ->
  get_extent im = (Fin x0, Fin x1, Fin y0, Fin y1) ->
  x0 <> x1 -> y0 <> y1 ->
  shape im = (rows, cols) -> (0 <= j < rows)%Z ->
  forall (sel : Selection) (i : Z),
    artist sel = AAxesImage im -> (0 <= i < cols)%Z ->
    coords (target sel) = (cell_center i (Fin x0) (Fin x1) cols,
                           cell_center j (Fin y0) (Fin y1) rows) ->
    move_times (S k) "right" sel =
    Ok (mkSelection (artist sel)
          (AttrArray
             (cell_center ((i + Z.of_nat (S k)) mod cols) (Fin x0) (Fin x1)
                          cols,
              cell_center j (Fin y0) (Fin y1) rows) None)
          (dist sel) (annotation sel) (extras sel)).
Proof.
  intros He Hx Hx01 Hy01 Hs Hj.
  assert (Hj0 : ((j + 0) mod rows = j)%Z).
  { rewrite Z.add_0_r. apply Z.mod_small. assumption. }
  induction k as [|k IH]; intros sel i Ha Hi Hc.
  - pose proof (@move_image_cell im sel "right" x0 x1 y0 y1 rows cols i j
                                 1 0 Ha He Hx Hx01 Hy01 Hs Hi Hj Hc eq_refl)
      as M.
    rewrite Hj0 in M. cbn [move_times]. rewrite M. reflexivity.
  - pose proof (@move_image_cell im sel "right" x0 x1 y0 y1 rows cols i j
                                 1 0 Ha He Hx Hx01 Hy01 Hs Hi Hj Hc eq_refl)
      as M.
    rewrite Hj0 in M.
    change (move_times (S (S k)) "right" sel)
      with (s <- move sel "right" ;; move_times (S k) "right" s).
    rewrite M. cbn [bind].
    assert (Hi1 : (0 <= (i + 1) mod cols < cols)%Z)
      by (apply Z.mod_pos_bound; lia).
    match goal with |- move_times _ _ ?s = _ =>
      rewrite (IH s ((i + 1) mod cols)%Z Ha Hi1 eq_refl) end.
    cbn [artist dist annotation extras].
    rewrite Zplus_mod_idemp_l.
    replace (i + 1 + Z.of_nat (S k))%Z with (i + Z.of_nat (S (S k)))%Z
      by lia.
    reflexivity.
Qed.

(** X14: the columns of an exact image are visited cyclically: from the
    centre of a cell, as many presses of [right] as the array has columns
    lead back to the same target. *)
Theorem image_right_is_cyclic (im : AxesImage) (sel : Selection)
        (x0 x1 y0 y1 : R) (rows cols i j : Z) :
  artist sel = AAxesImage im -> im_exact im = true ->
  get_extent im = (Fin x0, Fin x1, Fin y0, Fin y1) ->
  x0 <> x1 -> y0 <> y1 ->
  shape im = (rows, cols) ->
  (0 <= i < cols)%Z -> (0 <= j < rows)%Z ->
  coords (target sel) = (cell_center i (Fin x0) (Fin x1) cols,
                         cell_center j (Fin y0) (Fin y1) rows) ->
  exists s',
    move_times (Z.to_nat cols) "right" sel = Ok s'
    /\ coords (target s') = coords (target sel).
Proof.
  intros Ha He Hx Hx01 Hy01 Hs Hi Hj Hc.
  destruct (Z.to_nat cols) as [|k] eqn:Hk; [lia|].
  pose proof (@move_times_right_image im x0 x1 y0 y1 rows cols j k
                                      He Hx Hx01 Hy01 Hs Hj sel i Ha Hi Hc)
    as M.
  eexists. split; [exact M|]. cbn [target coords]. rewrite Hc.
  replace (Z.of_nat (S k)) with cols by lia.
  rewrite <- (Z.mul_1_l cols) at 1.
  rewrite Z.mod_add by lia. rewrite Z.mod_small by assumption.
  reflexivity.
Qed.

Lemma image_right_is_cyclic_witness :
  exists s',
    move_times (Z.to_nat 3) "right" (image_selection 1 0) = Ok s'
    /\ coords (target s') = coords (target (image_selection 1 0)).
Proof.
  apply (@image_right_is_cyclic small_image (image_selection 1 0)
                                0 3 0 2 2 3 1 0);
    try reflexivity; try lra; try lia.
Defined.

(** X15: a pick on an exact image at a data position inside cell
    [(i, j)], followed by an arrow key, selects the centre of the
    neighbouring cell (modulo the array dimensions); the distance stays
    0. *)
Theorem image_pick_then_move (im : AxesImage) (event : Event) (key : string)
        (x0 x1 y0 y1 tx ty : R) (rows cols i j dx dy : Z) :
  im_contains im event = true -> im_exact im = true ->
  get_extent im = (Fin x0, Fin x1, Fin y0, Fin y1) ->
  x0 <> x1 -> y0 <> y1 ->
  shape im = (rows, cols) ->
  (0 <= i < cols)%Z -> (0 <= j < rows)%Z ->
  xdata event = Fin tx -> ydata event = Fin ty ->
  IZR i <= (tx - x0) / (x1 - x0) * IZR cols < IZR i + 1 ->
  IZR j <= (ty - y0) / (y1 - y0) * IZR rows < IZR j + 1 ->
  key_step key = Ok (dx, dy) ->
  exists sel,
    compute_pick (AAxesImage im) event = ([], Ok (Some sel))
    /\ move sel key =
       Ok (mkSelection (AAxesImage im)
             (AttrArray
                (cell_center ((i + dx) mod cols) (Fin x0) (Fin x1) cols,
                 cell_center ((j + dy) mod rows) (Fin y0) (Fin y1) rows)
                None)
             (Fin 0) None None).
Proof.
  intros Hin He Hx Hx01 Hy01 Hs Hi Hj Htx Hty Hcx Hcy Hk.
  unfold compute_pick, compute_pick_filled. rewrite Hin. cbn [negb].
  eexists. split; [reflexivity|].
  unfold move. cbn [artist]. unfold move_AxesImage.
  rewrite He, Hx, Hs, Hk. cbn [negb fst snd bind target coords].
  rewrite Htx, Hty.
  rewrite (@to_cell_inside tx x0 x1 cols i Hx01 (proj1 Hi) Hcx).
  rewrite (@to_cell_inside ty y0 y1 rows j Hy01 (proj1 Hj) Hcy).
  unfold np_mod.
  destruct (Z.eqb_spec cols 0); [lia|].
  destruct (Z.eqb_spec rows 0); [lia|].
  reflexivity.
Qed.

Lemma image_pick_then_move_witness :
  exists sel,
    compute_pick (AAxesImage small_image) image_click = ([], Ok (Some sel))
    /\ move sel "right" =
       Ok (mkSelection (AAxesImage small_image)
             (AttrArray
                (cell_center ((2 + 1) mod 3) (Fin 0) (Fin 3) 3,
                 cell_center ((0 + 0) mod 2) (Fin 0) (Fin 2) 2) None)
             (Fin 0) None None).
Proof.
  apply (@image_pick_then_move small_image image_click "right"
                               0 3 0 2 (29 / 10) (2 / 10) 2 3 2 0 1 0);
    try reflexivity; try lra; try lia.
Defined.

(** ** More on the line pick: nearest vertex, nearest point *)

Lemma sumsq_psub_inv (x y : R) (q : point) (v : R) :
  sumsq (psub (Fin x, Fin y) q) = Fin v ->
  exists a b, q = (Fin a, Fin b)
              /\ v = (x - a) * (x - a) + (y - b) * (y - b).
Proof.
  destruct q as [[a|] [b|]]; unfold sumsq, psub, fsub, fadd, fmul, lift2;
    cbn [fst snd]; try discriminate.
  intros H. apply Fin_inj in H. exists a, b. split; [reflexivity|].
  symmetry. exact H.
Qed.

Lemma sumsq_psub_Fin (x y a b : R) :
  sumsq (psub (Fin x, Fin y) (Fin a, Fin b))
  = Fin ((x - a) * (x - a) + (y - b) * (y - b)).
Proof. reflexivity. Qed.

(** What the marker branch returns. *)
Lemma marker_candidate_spec (l : Line2D) (event : Event)
      (sel : Selection) :
  marker_candidate l event = Ok sel ->
  exists k p a b,
    index (target sel) = Some (IntIndex (Z.of_nat k))
    /\ nth_error (get_xydata l) k = Some p
    /\ coords (target sel) = p
    /\ transform (get_transform l) p = (Fin a, Fin b)
    /\ dist sel = Fin (euclid (ev_x event) (ev_y event) a b)
    /\ forall j p' a' b',
        nth_error (get_xydata l) j = Some p' ->
        transform (get_transform l) p' = (Fin a', Fin b') ->
        euclid (ev_x event) (ev_y event) a b
        <= euclid (ev_x event) (ev_y event) a' b'.
Proof.
  unfold marker_candidate. cbv zeta.
  destruct (nanargmin _) as [k|e] eqn:Hk; [|discriminate].
  cbn [bind]. intros H. injection H as <-.
  cbn [target index coords dist].
  match type of Hk with nanargmin ?d = _ =>
    pose proof (nanargmin_spec d) as S end.
  rewrite Hk in S. destruct S as [v [Hv Hmin]].
  rewrite (nth_error_nth _ _ NaN Hv).
  rewrite map_map, nth_error_map in Hv.
  destruct (nth_error (get_xydata l) k) as [p|] eqn:Hp; [|discriminate].
  cbn [option_map] in Hv. injection Hv as Hv.
  unfold event_xy in Hv.
  destruct (sumsq_psub_inv _ _ _ Hv) as [a [b [Ht Ev]]].
  exists k, p, a, b.
  split; [reflexivity|]. split; [exact Hp|].
  split; [apply (nth_error_nth _ _ nan_point Hp)|].
  split; [assumption|].
  subst v. split.
  - rewrite fsqrt_Fin by apply squares_nonneg. reflexivity.
  - intros j p' a' b' Hj Ht'. unfold euclid.
    apply sqrt_le_1_alt.
    apply (Hmin j). rewrite map_map, nth_error_map, Hj. cbn [option_map].
    unfold event_xy. rewrite Ht'. rewrite sumsq_psub_Fin. reflexivity.
Qed.

(** X16: the marker branch returns the nearest vertex: the target is the
    data point at the returned integer index, the distance is the
    Euclidean distance from the event to its screen position, and no
    vertex with a finite screen position is nearer. *)
Theorem marker_candidate_is_nearest_vertex (l : Line2D) (event : Event)
        (sel : Selection) :
  marker_candidate l event = Ok sel ->
  exists k p a b,
    index (target sel) = Some (IntIndex (Z.of_nat k))
    /\ nth_error (get_xydata l) k = Some p
    /\ coords (target sel) = p
    /\ transform (get_transform l) p = (Fin a, Fin b)
    /\ dist sel = Fin (euclid (ev_x event) (ev_y event) a b)
    /\ forall j p' a' b',
        nth_error (get_xydata l) j = Some p' ->
        transform (get_transform l) p' = (Fin a', Fin b') ->
        euclid (ev_x event) (ev_y event) a b
        <= euclid (ev_x event) (ev_y event) a' b'.
Proof. apply marker_candidate_spec. Qed.

(** The marker branch returns a candidate as soon as one vertex has a
    finite screen position. *)
Lemma marker_candidate_returns (l : Line2D) (event : Event) (p : point)
      (a b : R) :
  In p (get_xydata l) -> transform (get_transform l) p = (Fin a, Fin b) ->
  exists sel, marker_candidate l event = Ok sel.
Proof.
  intros Hin Ht. unfold marker_candidate. cbv zeta.
  match goal with |- context [nanargmin ?d] =>
    pose proof (nanargmin_spec d) as S; destruct (nanargmin d) as [k|e] end.
  - cbn [bind]. eexists. reflexivity.
  - exfalso. destruct S as [_ Hall]. rewrite Forall_forall in Hall.
    assert (Hx : In (sumsq (psub (event_xy event)
                                 (transform (get_transform l) p)))
                    (map (fun q => sumsq (psub (event_xy event) q))
                         (map (transform (get_transform l))
                              (get_xydata l)))).
    { apply in_map with (f := fun q => sumsq (psub (event_xy event) q)).
      apply in_map. assumption. }
    apply Hall in Hx. rewrite Ht in Hx. unfold event_xy in Hx.
    rewrite sumsq_psub_Fin in Hx. discriminate.
Qed.

Lemma marker_candidate_is_nearest_vertex_witness :
  exists sel k p a b,
    marker_candidate two_markers origin_event = Ok sel
    /\ index (target sel) = Some (IntIndex (Z.of_nat k))
    /\ nth_error (get_xydata two_markers) k = Some p
    /\ coords (target sel) = p
    /\ transform (get_transform two_markers) p = (Fin a, Fin b)
    /\ dist sel = Fin (euclid (ev_x origin_event) (ev_y origin_event) a b)
    /\ forall j p' a' b',
        nth_error (get_xydata two_markers) j = Some p' ->
        transform (get_transform two_markers) p' = (Fin a', Fin b') ->
        euclid (ev_x origin_event) (ev_y origin_event) a b
        <= euclid (ev_x origin_event) (ev_y origin_event) a' b'.
Proof.
  destruct (@marker_candidate_returns two_markers origin_event (pt 3 4) 3 4)
    as [sel Hsel]; [left; reflexivity | reflexivity |].
  exists sel.
  destruct (@marker_candidate_is_nearest_vertex two_markers origin_event
                                                sel Hsel)
    as [k [p [a [b H]]]].
  exists k, p, a, b. split; [exact Hsel | exact H].
Defined.

Lemma segment_explicit (x y a0 b0 a1 b1 : R) :
  let d := sqrt ((a1 - a0) * (a1 - a0) + (b1 - b0) * (b1 - b0)) in
  let ux := (a1 - a0) / d in
  let uy := (b1 - b0) / d in
  let t := Rmin (Rmax ((x - a0) * ux + (y - b0) * uy) 0) d in
  let s := segment (Fin x, Fin y) (Fin a0, Fin b0) (Fin a1, Fin b1) in
  d <> 0 ->
  seg_dot s = Fin t
  /\ seg_projs s = (Fin (a0 + t * ux), Fin (b0 + t * uy))
  /\ seg_d2s s = Fin ((x - (a0 + t * ux)) * (x - (a0 + t * ux))
                      + (y - (b0 + t * uy)) * (y - (b0 + t * uy))).
Proof.
  intros d ux uy t s Hd.
  assert (Hds : fsqrt (sumsq (psub (Fin a1, Fin b1) (Fin a0, Fin b0)))
                = Fin d).
  { unfold psub, sumsq, fsub, fadd, fmul, lift2. cbn [fst snd].
    apply fsqrt_Fin. apply squares_nonneg. }
  subst s. unfold segment. cbn [seg_dot seg_projs seg_d2s].
  rewrite Hds. unfold psub, fsub, lift2. cbn [fst snd].
  rewrite !fdiv_Fin by assumption.
  repeat split; reflexivity.
Qed.

Lemma unit_vector_norm (a0 b0 a1 b1 : R) :
  let d := sqrt ((a1 - a0) * (a1 - a0) + (b1 - b0) * (b1 - b0)) in
  d <> 0 ->
  (a1 - a0) / d * ((a1 - a0) / d) + (b1 - b0) / d * ((b1 - b0) / d) = 1.
Proof.
  intros d Hd.
  assert (Hsq : d * d = (a1 - a0) * (a1 - a0) + (b1 - b0) * (b1 - b0)).
  { subst d. apply sqrt_sqrt. apply squares_nonneg. }
  replace ((a1 - a0) / d * ((a1 - a0) / d) + (b1 - b0) / d * ((b1 - b0) / d))
    with (((a1 - a0) * (a1 - a0) + (b1 - b0) * (b1 - b0)) / (d * d))
    by (field; assumption).
  rewrite <- Hsq. field. assumption.
Qed.

Lemma distance_along (x y a0 b0 ux uy s : R) :
  ux * ux + uy * uy = 1 ->
  (x - (a0 + s * ux)) * (x - (a0 + s * ux))
  + (y - (b0 + s * uy)) * (y - (b0 + s * uy))
  = (x - a0) * (x - a0) + (y - b0) * (y - b0)
    - 2 * s * ((x - a0) * ux + (y - b0) * uy) + s * s.
Proof.
  intros H.
  transitivity ((x - a0) * (x - a0) + (y - b0) * (y - b0)
                - 2 * s * ((x - a0) * ux + (y - b0) * uy)
                + s * s * (ux * ux + uy * uy)); [ring|].
  rewrite H. ring.
Qed.

Lemma clip_is_nearest (q d s : R) :
  0 <= d -> 0 <= s <= d ->
  let t := Rmin (Rmax q 0) d in
  t * t - 2 * t * q <= s * s - 2 * s * q.
Proof.
  intros Hd Hs t. subst t. unfold Rmin, Rmax.
  destruct (Rle_dec q 0) as [Hq|Hq].
  - destruct (Rle_dec 0 d); [|lra].
    assert (0 <= s * - q) by (apply Rmult_le_pos; lra).
    assert (0 <= s * s) by (apply Rmult_le_pos; lra). lra.
  - destruct (Rle_dec q d) as [Hqd|Hqd].
    + assert (0 <= (s - q) * (s - q)) by apply Rle_0_sqr. lra.
    + assert (0 <= (d - s) * (2 * q - d - s))
        by (apply Rmult_le_pos; lra).
      lra.
Qed.

(** The squared distance of a segment between two distinct finite points
    is at most the squared distance from the event to any point of the
    segment. *)
Lemma segment_is_nearest (x y a0 b0 a1 b1 lam v : R) :
  sqrt ((a1 - a0) * (a1 - a0) + (b1 - b0) * (b1 - b0)) <> 0 ->
  seg_d2s (segment (Fin x, Fin y) (Fin a0, Fin b0) (Fin a1, Fin b1))
  = Fin v ->
  0 <= lam <= 1 ->
  v <= (x - (a0 + lam * (a1 - a0))) * (x - (a0 + lam * (a1 - a0)))
       + (y - (b0 + lam * (b1 - b0))) * (y - (b0 + lam * (b1 - b0))).
Proof.
  intros Hd Hv Hlam.
  destruct (segment_explicit x y a0 b0 a1 b1 Hd) as [_ [_ E]].
  rewrite E in Hv. apply Fin_inj in Hv. subst v.
  pose proof (unit_vector_norm a0 b0 a1 b1 Hd) as U. cbv zeta in U.
  set (d := sqrt ((a1 - a0) * (a1 - a0) + (b1 - b0) * (b1 - b0))) in *.
  set (ux := (a1 - a0) / d) in *. set (uy := (b1 - b0) / d) in *.
  set (q := (x - a0) * ux + (y - b0) * uy).
  assert (Hpos : 0 <= d) by apply sqrt_pos.
  replace (a0 + lam * (a1 - a0)) with (a0 + lam * d * ux)
    by (subst ux; field; assumption).
  replace (b0 + lam * (b1 - b0)) with (b0 + lam * d * uy)
    by (subst uy; field; assumption).
  rewrite !(distance_along x y a0 b0 _ U).
  assert (Hs : 0 <= lam * d <= d) by nra.
  pose proof (clip_is_nearest q Hpos Hs) as C. cbv zeta in C.
  fold q. lra.
Qed.

(** X17: on a segment between two distinct finite points, the squared
    distance computed by lines 144-153 is the squared distance from the
    event to the projection, and no point of the segment is nearer to the
    event than the projection. *)
Theorem projection_is_nearest_point (x y a0 b0 a1 b1 lam : R) :
  (a0, b0) <> (a1, b1) -> 0 <= lam <= 1 ->
  exists px py,
    seg_projs (segment (Fin x, Fin y) (Fin a0, Fin b0) (Fin a1, Fin b1))
    = (Fin px, Fin py)
    /\ seg_d2s (segment (Fin x, Fin y) (Fin a0, Fin b0) (Fin a1, Fin b1))
       = Fin ((x - px) * (x - px) + (y - py) * (y - py))
    /\ euclid x y px py
       <= euclid x y (a0 + lam * (a1 - a0)) (b0 + lam * (b1 - b0)).
Proof.
  intros Hne Hlam.
  assert (Hd : sqrt ((a1 - a0) * (a1 - a0) + (b1 - b0) * (b1 - b0)) <> 0).
  { intros H. apply sqrt_sumsq_zero in H. destruct H as [Ha Hb].
    apply Hne. f_equal; lra. }
  destruct (segment_explicit x y a0 b0 a1 b1 Hd) as [_ [Hp E]].
  eexists. eexists. split; [exact Hp|]. split; [exact E|].
  unfold euclid. apply sqrt_le_1_alt.
  apply (@segment_is_nearest x y a0 b0 a1 b1 lam _ Hd E Hlam).
Qed.

Lemma projection_is_nearest_point_witness :
  exists px py,
    seg_projs (segment (Fin 0, Fin 5) (Fin 0, Fin 0) (Fin 3, Fin 4))
    = (Fin px, Fin py)
    /\ seg_d2s (segment (Fin 0, Fin 5) (Fin 0, Fin 0) (Fin 3, Fin 4))
       = Fin ((0 - px) * (0 - px) + (5 - py) * (5 - py))
    /\ euclid 0 5 px py
       <= euclid 0 5 (0 + 1 / 2 * (3 - 0)) (0 + 1 / 2 * (4 - 0)).
Proof.
  apply (@projection_is_nearest_point 0 5 0 0 3 4 (1 / 2)); [|lra].
  intros H. injection H. lra.
Defined.

(** What the line branch returns: the projection on the segment selected by
    [np.nanargmin], its Euclidean distance to the event, and the fact that
    no segment with a finite distance has a smaller one. *)
Lemma line_candidate_spec (l : Line2D) (event : Event) (sel : Selection) :
  line_candidate l event = Ok sel ->
  exists s px py,
    In s (segments (event_xy event) (line_artist_xys l))
    /\ seg_projs s = (Fin px, Fin py)
    /\ coords (target sel)
       = transData_inverted (line_axes l) (Fin px, Fin py)
    /\ dist sel = Fin (euclid (ev_x event) (ev_y event) px py)
    /\ forall s' w,
        In s' (segments (event_xy event) (line_artist_xys l)) ->
        seg_d2s s' = Fin w ->
        (ev_x event - px) * (ev_x event - px)
        + (ev_y event - py) * (ev_y event - py) <= w.
Proof.
  unfold line_candidate. cbv zeta.
  destruct (nanargmin _) as [k|e] eqn:Hk; [|discriminate].
  cbn [bind]. intros H. injection H as <-. cbn [target coords dist].
  pose proof (nanargmin_spec
                (map seg_d2s (segments (event_xy event) (line_artist_xys l))))
    as S.
  rewrite Hk in S. destruct S as [v [Hv Hmin]].
  rewrite (nth_error_nth _ _ NaN Hv).
  rewrite nth_error_map in Hv.
  destruct (nth_error (segments (event_xy event) (line_artist_xys l)) k)
    as [s|] eqn:Hs; [|discriminate].
  cbn [option_map] in Hv. injection Hv as Hv.
  rewrite (nth_error_nth _ _ nan_segment Hs).
  apply nth_error_In in Hs.
  destruct (in_segments _ _ _ Hs) as [p0 [p1 [_ E]]].
  pose proof Hv as Hv'. rewrite E in Hv'.
  destruct (finite_distance_nonzero_length _ _ _ Hv') as [d [Hd Hd0]].
  destruct (segment_length_finite _ _ _ Hd)
    as [a0 [b0 [a1 [b1 [-> [-> Hsqrt]]]]]].
  assert (Hd' : sqrt ((a1 - a0) * (a1 - a0) + (b1 - b0) * (b1 - b0)) <> 0)
    by (rewrite <- Hsqrt; assumption).
  destruct (segment_explicit (ev_x event) (ev_y event) a0 b0 a1 b1 Hd')
    as [_ [Hp E2]].
  unfold event_xy in E. rewrite <- E in Hp, E2.
  rewrite E2 in Hv. apply Fin_inj in Hv.
  eexists s, _, _.
  split; [assumption|]. split; [exact Hp|].
  rewrite Hp. split; [reflexivity|].
  split.
  - rewrite <- Hv. rewrite fsqrt_Fin by apply squares_nonneg. reflexivity.
  - intros s' w Hin Hw. rewrite Hv.
    destruct (In_nth_error _ _ Hin) as [j Hj].
    apply (Hmin j). rewrite nth_error_map, Hj. cbn [option_map].
    rewrite Hw. reflexivity.
Qed.

(** X18: the line branch returns the nearest point of the polyline: the
    target is the (inverse-transformed) projection on one of its segments,
    the distance is the Euclidean distance from the event to that
    projection, and no point of any finite, non-degenerate segment of the
    polyline is nearer to the event. *)
Theorem line_candidate_is_nearest_point (l : Line2D) (event : Event)
        (sel : Selection) :
  line_candidate l event = Ok sel ->
  exists s px py,
    In s (segments (event_xy event) (line_artist_xys l))
    /\ seg_projs s = (Fin px, Fin py)
    /\ coords (target sel)
       = transData_inverted (line_axes l) (Fin px, Fin py)
    /\ dist sel = Fin (euclid (ev_x event) (ev_y event) px py)
    /\ forall a0 b0 a1 b1 lam,
        In ((Fin a0, Fin b0), (Fin a1, Fin b1))
           (consecutive (line_artist_xys l)) ->
        (a0, b0) <> (a1, b1) -> 0 <= lam <= 1 ->
        euclid (ev_x event) (ev_y event) px py
        <= euclid (ev_x event) (ev_y event)
                  (a0 + lam * (a1 - a0)) (b0 + lam * (b1 - b0)).
Proof.
  intros Hc.
  destruct (line_candidate_spec _ _ Hc) as [s [px [py [Hs [Hp [Ht [Hd Hmin]]]]]]].
  exists s, px, py. repeat (split; [assumption|]).
  intros a0 b0 a1 b1 lam Hin Hne Hlam.
  assert (Hd' : sqrt ((a1 - a0) * (a1 - a0) + (b1 - b0) * (b1 - b0)) <> 0).
  { intros H. apply sqrt_sumsq_zero in H. destruct H as [Ha Hb].
    apply Hne. f_equal; lra. }
  destruct (segment_distance_finite (ev_x event) (ev_y event) a0 b0 a1 b1 Hd')
    as [w Hw].
  unfold euclid. apply sqrt_le_1_alt.
  apply Rle_trans with w.
  - apply (Hmin (segment (event_xy event) (Fin a0, Fin b0) (Fin a1, Fin b1)));
      [|exact Hw].
    unfold segments.
    apply (in_map (fun pq => segment (event_xy event) (fst pq) (snd pq))
                  _ _ Hin).
  - apply (@segment_is_nearest (ev_x event) (ev_y event) a0 b0 a1 b1 lam w
                               Hd' Hw Hlam).
Qed.

Lemma roof_line_candidate :
  exists sel, line_candidate roof_line origin_event = Ok sel.
Proof.
  assert (Hd : sqrt ((3 - 0) * (3 - 0) + (4 - 0) * (4 - 0)) <> 0).
  { intros H. apply sqrt_eq_0 in H; lra. }
  destruct (segment_distance_finite 0 0 0 0 3 4 Hd) as [v Hv].
  apply (@line_candidate_returns roof_line origin_event
           (segment (Fin 0, Fin 0) (pt 0 0) (pt 3 4)) v);
    [left; reflexivity | exact Hv].
Qed.

Lemma line_candidate_is_nearest_point_witness :
  exists sel s px py,
    line_candidate roof_line origin_event = Ok sel
    /\ In s (segments (event_xy origin_event) (line_artist_xys roof_line))
    /\ seg_projs s = (Fin px, Fin py)
    /\ coords (target sel)
       = transData_inverted (line_axes roof_line) (Fin px, Fin py)
    /\ dist sel
       = Fin (euclid (ev_x origin_event) (ev_y origin_event) px py)
    /\ forall a0 b0 a1 b1 lam,
        In ((Fin a0, Fin b0), (Fin a1, Fin b1))
           (consecutive (line_artist_xys roof_line)) ->
        (a0, b0) <> (a1, b1) -> 0 <= lam <= 1 ->
        euclid (ev_x origin_event) (ev_y origin_event) px py
        <= euclid (ev_x origin_event) (ev_y origin_event)
                  (a0 + lam * (a1 - a0)) (b0 + lam * (b1 - b0)).
Proof.
  destruct roof_line_candidate as [sel Hsel]. exists sel.
  destruct (@line_candidate_is_nearest_point roof_line origin_event sel Hsel)
    as [s [px [py H]]].
  exists s, px, py. split; [exact Hsel | exact H].
Defined.

(** ** More on the line pick: what is accepted *)

Lemma candidates_forall (P : Selection -> Prop) (l : Line2D)
      (event : Event) (sels : list Selection) :
  (forall s, marker_candidate l event = Ok s -> P s) ->
  (forall s, line_candidate l event = Ok s -> P s) ->
  candidates l event = Ok sels -> Forall P sels.
Proof.
  intros Hm Hl. unfold candidates.
  destruct (style_visible (get_marker l)).
  - destruct (marker_candidate l event) as [s1|e]; [|discriminate].
    specialize (Hm s1 eq_refl). cbn [bind].
    destruct (style_visible (get_linestyle l)
              && (1 <? List.length (get_xydata l))%nat)%bool.
    + destruct (line_candidate l event) as [s2|e]; [|discriminate].
      specialize (Hl s2 eq_refl). cbn [bind app].
      intros H. injection H as <-. repeat constructor; assumption.
    + cbn [bind app]. intros H. injection H as <-.
      repeat constructor; assumption.
  - cbn [bind].
    destruct (style_visible (get_linestyle l)
              && (1 <? List.length (get_xydata l))%nat)%bool.
    + destruct (line_candidate l event) as [s2|e]; [|discriminate].
      specialize (Hl s2 eq_refl). cbn [bind app].
      intros H. injection H as <-. repeat constructor; assumption.
    + cbn [bind app]. intros H. injection H as <-. constructor.
Qed.

Lemma nanargmin_distance_nonneg (d2s : list npfloat) (k : nat) :
  (forall a, In a d2s -> exists p, a = sumsq p) ->
  nanargmin d2s = Ok k ->
  exists d, fsqrt (nth k d2s NaN) = Fin d /\ 0 <= d.
Proof.
  intros Hsq Hk. pose proof (nanargmin_spec d2s) as S. rewrite Hk in S.
  destruct S as [v [Hv _]].
  rewrite (nth_error_nth _ _ NaN Hv).
  apply nth_error_In in Hv. destruct (Hsq _ Hv) as [p Hp].
  symmetry in Hp. apply sumsq_nonneg in Hp.
  exists (sqrt v). split; [apply fsqrt_Fin; assumption | apply sqrt_pos].
Qed.

Lemma candidates_nonneg (l : Line2D) (event : Event)
      (sels : list Selection) :
  candidates l event = Ok sels ->
  Forall (fun s => exists d, dist s = Fin d /\ 0 <= d) sels.
Proof.
  apply candidates_forall.
  - intros s. unfold marker_candidate. cbv zeta.
    destruct (nanargmin _) as [k|e] eqn:Hk; [|discriminate].
    cbn [bind]. intros H. injection H as <-. cbn [dist].
    apply nanargmin_distance_nonneg; [|exact Hk].
    intros a Ha. apply in_map_iff in Ha. destruct Ha as [p [<- _]].
    eexists. reflexivity.
  - intros s. unfold line_candidate. cbv zeta.
    destruct (nanargmin _) as [k|e] eqn:Hk; [|discriminate].
    cbn [bind]. intros H. injection H as <-. cbn [dist].
    apply nanargmin_distance_nonneg; [|exact Hk].
    intros a Ha. apply in_map_iff in Ha. destruct Ha as [sg [<- Hsg]].
    apply in_segments in Hsg. destruct Hsg as [p0 [p1 [_ ->]]].
    eexists. reflexivity.
Qed.

(** X19: a selection returned by the line pick is one of the candidates,
    and its distance is a number [d] with [0 <= d < pickradius]; so a line
    whose pick radius is 0, negative or not a number is never picked, not
    even by an exact hit. *)
Theorem accepted_pick_within_radius (l : Line2D) (event : Event)
        (sel : Selection) :
  compute_pick (ALine2D l) event = ([], Ok (Some sel)) ->
  exists sels d r,
    candidates l event = Ok sels /\ In sel sels
    /\ dist sel = Fin d /\ pickradius l = Fin r /\ 0 <= d < r.
Proof.
  unfold compute_pick, compute_pick_Line2D. intros H. injection H as H.
  destruct (candidates l event) as [sels|e] eqn:Hc; [|discriminate].
  cbn [bind] in H. injection H as H.
  pose proof (candidates_finite _ _ Hc) as Hfin.
  pose proof (candidates_nonneg _ _ Hc) as Hpos.
  destruct sels as [|s r]; [discriminate|].
  cbn [py_min accept] in H.
  inversion Hfin as [|? ? Hs Hr]; subst.
  destruct (@py_min_from_spec _ dist r s Hs Hr) as [Hin _].
  destruct (fltb (dist (py_min_from dist s r)) (pickradius l)) eqn:Hlt;
    [|discriminate].
  injection H as <-.
  apply fltb_true_inv in Hlt. destruct Hlt as [u [v [Hu [Hv Huv]]]].
  rewrite Forall_forall in Hpos. destruct (Hpos _ Hin) as [d [Hd Hd0]].
  exists (s :: r), u, v.
  split; [reflexivity|]. split; [assumption|].
  split; [assumption|]. split; [assumption|].
  rewrite Hu in Hd. apply Fin_inj in Hd. lra.
Qed.

Lemma accepted_pick_within_radius_witness :
  exists sels d r,
    candidates (single_marker 6) origin_event = Ok sels
    /\ In (single_marker_selection 6) sels
    /\ dist (single_marker_selection 6) = Fin d
    /\ pickradius (single_marker 6) = Fin r /\ 0 <= d < r.
Proof.
  apply (@accepted_pick_within_radius (single_marker 6) origin_event
                                      (single_marker_selection 6)).
  exact (proj1 single_marker_radius_is_strict).
Defined.

(** ** Markers and line together *)

Lemma consecutive_cons (a b : point) (t : list point) :
  consecutive (a :: b :: t) = (a, b) :: consecutive (b :: t).
Proof. reflexivity. Qed.

(** On a polyline of at least two points, every point is an endpoint of a
    segment. *)
Lemma endpoint_of_consecutive (L : list point) :
  forall (k : nat) (q : point),
    (2 <= List.length L)%nat -> nth_error L k = Some q ->
    (exists q', In (q, q') (consecutive L))
    \/ (exists q', In (q', q) (consecutive L)).
Proof.
  induction L as [|a t IH]; intros k q Hlen Hk; [simpl in Hlen; lia|].
  destruct t as [|b t]; [simpl in Hlen; lia|].
  rewrite consecutive_cons.
  destruct k as [|k].
  - simpl in Hk. injection Hk as <-. left. exists b. left. reflexivity.
  - change (nth_error (b :: t) k = Some q) in Hk.
    destruct k as [|k].
    + simpl in Hk. injection Hk as <-. right. exists a. left. reflexivity.
    + assert (Hlen' : (2 <= List.length (b :: t))%nat).
      { assert (Hn : nth_error (b :: t) (S k) <> None)
          by (rewrite Hk; discriminate).
        apply nth_error_Some in Hn. lia. }
      destruct (IH (S k) q Hlen' Hk) as [[q' H]|[q' H]];
        [left | right]; exists q'; right; exact H.
Qed.

(** X20: with markers and a direct-style line both visible under an affine
    transform, on at least two points whose screen positions are finite
    and pairwise distinct along the line, both candidates exist and the
    line candidate is never farther than the marker candidate; the pick
    keeps the marker candidate (integer index) only on a tie, that is when
    the nearest point of the line is a vertex, and then applies the pick
    radius. *)
Theorem line_candidate_not_farther_than_marker (l : Line2D)
        (event : Event) :
  style_visible (get_marker l) = true ->
  style_visible (get_linestyle l) = true ->
  get_drawstyle l = draw_lines ->
  is_affine (get_transform l) = true ->
  (2 <= List.length (get_xydata l))%nat ->
  (forall p0 p1,
      In (p0, p1)
         (consecutive (map (transform (get_transform l)) (get_xydata l))) ->
      exists a0 b0 a1 b1,
        p0 = (Fin a0, Fin b0) /\ p1 = (Fin a1, Fin b1)
        /\ (a0, b0) <> (a1, b1)) ->
  exists m c dm dc,
    marker_candidate l event = Ok m /\ line_candidate l event = Ok c
    /\ dist m = Fin dm /\ dist c = Fin dc /\ dc <= dm
    /\ compute_pick (ALine2D l) event
       = ([], Ok (accept (pickradius l)
                         (Some (if Rlt_dec dc dm then c else m)))).
Proof.
  intros Hmk Hls Hstyle Haff Hlen Hreg.
  assert (Hxys : line_artist_xys l
                 = map (transform (get_transform l)) (get_xydata l)).
  { unfold line_artist_xys. rewrite Haff, Hstyle. reflexivity. }
  assert (Hnz : forall a0 b0 a1 b1 : R,
             (a0, b0) <> (a1, b1) ->
             sqrt ((a1 - a0) * (a1 - a0) + (b1 - b0) * (b1 - b0)) <> 0).
  { intros a0 b0 a1 b1 Hne H. apply sqrt_sumsq_zero in H.
    destruct H as [Ha Hb]. apply Hne. f_equal; lra. }
  (* both candidates exist *)
  assert (Hex : exists p q rest, get_xydata l = p :: q :: rest).
  { destruct (get_xydata l) as [|p [|q rest]];
      [simpl in Hlen; lia | simpl in Hlen; lia |].
    exists p, q, rest. reflexivity. }
  destruct Hex as [p [q [rest Hdata]]].
  destruct (Hreg (transform (get_transform l) p)
                 (transform (get_transform l) q))
    as [a0 [b0 [a1 [b1 [Hp [Hq Hne]]]]]];
    [rewrite Hdata; left; reflexivity|].
  destruct (@marker_candidate_returns l event p a0 b0) as [m Hm];
    [rewrite Hdata; left; reflexivity | assumption |].
  destruct (segment_distance_finite (ev_x event) (ev_y event) a0 b0 a1 b1
                                    (Hnz _ _ _ _ Hne)) as [v0 Hv0].
  destruct (@line_candidate_returns l event
              (segment (event_xy event) (Fin a0, Fin b0) (Fin a1, Fin b1))
              v0) as [c Hc]; [|exact Hv0|].
  { rewrite Hxys, Hdata. cbn [map]. unfold segments.
    rewrite consecutive_cons. left. cbn [fst snd]. rewrite Hp, Hq.
    reflexivity. }
  (* their distances *)
  destruct (marker_candidate_spec _ _ Hm)
    as [k [pk [a [b [_ [Hk [_ [Ht [Hdm _]]]]]]]]].
  destruct (line_candidate_spec _ _ Hc)
    as [s [px [py [_ [_ [_ [Hdc Hmin]]]]]]].
  exists m, c, (euclid (ev_x event) (ev_y event) a b),
    (euclid (ev_x event) (ev_y event) px py).
  split; [exact Hm|]. split; [exact Hc|].
  split; [exact Hdm|]. split; [exact Hdc|].
  assert (Hle : euclid (ev_x event) (ev_y event) px py
                <= euclid (ev_x event) (ev_y event) a b).
  { unfold euclid. apply sqrt_le_1_alt.
    assert (Hkt : nth_error (map (transform (get_transform l))
                                 (get_xydata l)) k
                  = Some (Fin a, Fin b)).
    { rewrite nth_error_map, Hk. cbn [option_map]. rewrite Ht.
      reflexivity. }
    assert (Hl2 : (2 <= List.length (map (transform (get_transform l))
                                         (get_xydata l)))%nat)
      by (rewrite length_map; exact Hlen).
    destruct (endpoint_of_consecutive _ _ Hl2 Hkt) as [[q' Hin]|[q' Hin]].
    - destruct (Hreg _ _ Hin) as [c0 [d0 [c1 [d1 [E0 [E1 Hne']]]]]].
      injection E0 as <- <-. subst q'.
      destruct (segment_distance_finite (ev_x event) (ev_y event)
                                        a b c1 d1 (Hnz _ _ _ _ Hne'))
        as [w Hw].
      apply Rle_trans with w.
      + apply (Hmin (segment (event_xy event) (Fin a, Fin b)
                             (Fin c1, Fin d1))); [|exact Hw].
        rewrite Hxys. unfold segments.
        apply (in_map (fun pq => segment (event_xy event) (fst pq) (snd pq))
                      _ _ Hin).
      + pose proof (@segment_is_nearest (ev_x event) (ev_y event)
                      a b c1 d1 0 w (Hnz _ _ _ _ Hne') Hw ltac:(lra)) as N.
        replace (a + 0 * (c1 - a)) with a in N by ring.
        replace (b + 0 * (d1 - b)) with b in N by ring. exact N.
    - destruct (Hreg _ _ Hin) as [c0 [d0 [c1 [d1 [E0 [E1 Hne']]]]]].
      injection E1 as <- <-. subst q'.
      destruct (segment_distance_finite (ev_x event) (ev_y event)
                                        c0 d0 a b (Hnz _ _ _ _ Hne'))
        as [w Hw].
      apply Rle_trans with w.
      + apply (Hmin (segment (event_xy event) (Fin c0, Fin d0)
                             (Fin a, Fin b))); [|exact Hw].
        rewrite Hxys. unfold segments.
        apply (in_map (fun pq => segment (event_xy event) (fst pq) (snd pq))
                      _ _ Hin).
      + pose proof (@segment_is_nearest (ev_x event) (ev_y event)
                      c0 d0 a b 1 w (Hnz _ _ _ _ Hne') Hw ltac:(lra)) as N.
        replace (c0 + 1 * (a - c0)) with a in N by ring.
        replace (d0 + 1 * (b - d0)) with b in N by ring. exact N. }
  split; [exact Hle|].
  unfold compute_pick, compute_pick_Line2D, candidates.
  rewrite Hmk, Hls, Hm, Hc, Hdata.
  cbn [List.length Nat.ltb Nat.leb andb bind app py_min py_min_from].
  rewrite Hdm, Hdc. unfold fltb.
  destruct (Rlt_dec (euclid (ev_x event) (ev_y event) px py)
                    (euclid (ev_x event) (ev_y event) a b)); reflexivity.
Qed.

Lemma line_candidate_not_farther_than_marker_witness :
  exists m c dm dc,
    marker_candidate roof_markers_line origin_event = Ok m
    /\ line_candidate roof_markers_line origin_event = Ok c
    /\ dist m = Fin dm /\ dist c = Fin dc /\ dc <= dm
    /\ compute_pick (ALine2D roof_markers_line) origin_event
       = ([], Ok (accept (pickradius roof_markers_line)
                         (Some (if Rlt_dec dc dm then c else m)))).
Proof.
  apply (@line_candidate_not_farther_than_marker roof_markers_line
                                                 origin_event);
    try reflexivity.
  - simpl. lia.
  - intros p0 p1 Hin. simpl in Hin.
    destruct Hin as [H | [H | []]]; injection H as <- <-.
    + exists 0, 0, 3, 4. repeat split. intros E. injection E. lra.
    + exists 3, 4, 6, 0. repeat split. intros E. injection E. lra.
Defined.

(** ** The index of a line pick *)

Lemma prestep_from_length (l : list point) :
  forall prev,
    List.length (cbook.prestep_from prev l) = (2 * List.length l)%nat.
Proof.
  induction l as [|p t IH]; intros prev; simpl; [reflexivity|].
  rewrite IH. lia.
Qed.

Lemma poststep_from_length (l : list point) :
  forall prev,
    List.length (cbook.poststep_from prev l) = (2 * List.length l)%nat.
Proof.
  induction l as [|p t IH]; intros prev; simpl; [reflexivity|].
  rewrite IH. lia.
Qed.

(** The expanded polyline of N >= 1 points has 2N - 1 points for the
    step-before and step-after styles, 2N for step-mid and N for the direct
    style: at most 2N. *)
Lemma drawstyle_conv_length (d : drawstyle) (l : list point) :
  (List.length (drawstyle_conv d l)
   = match d with
     | draw_lines => List.length l
     | draw_steps_mid => 2 * List.length l
     | _ => 2 * List.length l - 1
     end)%nat.
Proof.
  destruct d; cbn [drawstyle_conv]; [reflexivity | | |].
  - destruct l as [|p t]; simpl; [reflexivity|].
    rewrite prestep_from_length. lia.
  - apply pts_to_midstep_length.
  - destruct l as [|p t]; simpl; [reflexivity|].
    rewrite poststep_from_length. lia.
Qed.

Lemma Rfloor_near (k : Z) (f : R) :
  0 <= f <= 1 -> (k <= Rfloor (IZR k + f) <= k + 1)%Z.
Proof.
  intros Hf. pose proof (Rfloor_spec (IZR k + f)) as [H1 H2].
  split.
  - apply Z.lt_succ_r. apply lt_IZR. rewrite succ_IZR. lra.
  - apply le_IZR. rewrite plus_IZR. lra.
Qed.

(** X21: under an affine transform, whatever the draw style, a pick on the
    line of N data points carries an index whose floor is the position of
    one of the data points: [0 <= floor < N]. *)
Theorem line_pick_floor_in_range (l : Line2D) (event : Event)
        (sel : Selection) :
  is_affine (get_transform l) = true ->
  line_candidate l event = Ok sel ->
  exists i fl,
    index (target sel) = Some i /\ index_floor i = Ok fl
    /\ (0 <= fl < Z.of_nat (List.length (get_xydata l)))%Z.
Proof.
  intros Haff. unfold line_candidate. cbv zeta.
  destruct (nanargmin _) as [k|e] eqn:Hk; [|discriminate].
  cbn [bind]. intros H. injection H as <-. cbn [target index].
  rewrite Haff.
  pose proof (nanargmin_spec
                (map seg_d2s (segments (event_xy event) (line_artist_xys l))))
    as S.
  rewrite Hk in S. destruct S as [v [Hv _]].
  rewrite nth_error_map in Hv.
  destruct (nth_error (segments (event_xy event) (line_artist_xys l)) k)
    as [s|] eqn:Hs; [|discriminate].
  cbn [option_map] in Hv. injection Hv as Hv.
  rewrite (nth_error_nth _ _ nan_segment Hs).
  assert (Hklt : (k < List.length (line_artist_xys l) - 1)%nat).
  { rewrite <- (segments_length (event_xy event)).
    apply nth_error_Some. rewrite Hs. discriminate. }
  assert (Hlen : List.length (line_artist_xys l)
                 = List.length (drawstyle_conv (get_drawstyle l)
                                               (get_xydata l))).
  { unfold line_artist_xys. rewrite Haff. apply length_map. }
  rewrite drawstyle_conv_length in Hlen.
  apply nth_error_In in Hs.
  destruct (in_segments _ _ _ Hs) as [p0 [p1 [_ ->]]].
  unfold event_xy in *.
  destruct (segment_fraction _ _ _ _ Hv) as [f [-> Hf]].
  set (N := List.length (get_xydata l)) in *.
  set (n := List.length (line_artist_xys l)) in *.
  assert (Hdm : (Z.of_nat k = 2 * (Z.of_nat k / 2) + Z.of_nat k mod 2)%Z)
    by (apply Z.div_mod; lia).
  assert (Hmb : (0 <= Z.of_nat k mod 2 < 2)%Z)
    by (apply Z.mod_pos_bound; lia).
  destruct (get_drawstyle l); cbn [encode_index].
  - exists (FloatIndex (fadd (of_Z (Z.of_nat k)) (Fin f))),
      (Rfloor (IZR (Z.of_nat k) + f)).
    split; [reflexivity|]. split; [reflexivity|].
    pose proof (Rfloor_near (Z.of_nat k) Hf). lia.
  - eexists. eexists. split; [reflexivity|]. split; [reflexivity|].
    unfold Index.floor, Index.pre_index, Index.divmod2.
    destruct (Z.of_nat k mod 2 =? 0)%Z; cbn [Index.int]; lia.
  - eexists. eexists. split; [reflexivity|]. split; [reflexivity|].
    pose proof (@mid_index_floor_bounds (Z.of_nat n) (Z.of_nat k) f) as B.
    rewrite Hlen in *.
    replace (Z.of_nat (2 * N) / 2)%Z with (Z.of_nat N) in B.
    + apply B; [lia | lia | assumption].
    + rewrite Nat2Z.inj_mul. change (Z.of_nat 2) with 2%Z.
      rewrite Z.mul_comm, Z.div_mul by lia. reflexivity.
  - eexists. eexists. split; [reflexivity|]. split; [reflexivity|].
    unfold Index.floor, Index.post_index, Index.divmod2.
    destruct (Z.of_nat k mod 2 =? 0)%Z; cbn [Index.int]; lia.
Qed.

Lemma line_pick_floor_in_range_witness :
  exists sel i fl,
    line_candidate roof_line origin_event = Ok sel
    /\ index (target sel) = Some i /\ index_floor i = Ok fl
    /\ (0 <= fl < Z.of_nat (List.length (get_xydata roof_line)))%Z.
Proof.
  destruct roof_line_candidate as [sel Hsel]. exists sel.
  destruct (@line_pick_floor_in_range roof_line origin_event sel eq_refl Hsel)
    as [i [fl H]].
  exists i, fl. split; [exact Hsel | exact H].
Defined.

(** ** The pick of a point collection *)

Lemma take_spec (A : Type) (a : list A) (idxs : list nat) :
  forall r, take a idxs = Ok r ->
            Forall2 (fun i v => nth_error a i = Some v) idxs r.
Proof.
  induction idxs as [|i rest IH]; intros r H; simpl in H.
  - injection H as <-. constructor.
  - destruct (nth_error a i) as [v|] eqn:Hv; [|discriminate].
    destruct (take a rest) as [r'|e]; [|discriminate].
    cbn [bind] in H. injection H as <-.
    constructor; [assumption | apply IH; reflexivity].
Qed.

Lemma Forall2_nth_error (A B : Type) (P : A -> B -> Prop)
      (la : list A) (lb : list B) :
  Forall2 P la lb ->
  forall k b, nth_error lb k = Some b ->
              exists a, nth_error la k = Some a /\ P a b.
Proof.
  induction 1 as [|a b la lb Hab _ IH]; intros k v Hk.
  - destruct k; discriminate.
  - destruct k as [|k]; simpl in Hk.
    + injection Hk as <-. exists a. split; [reflexivity | assumption].
    + apply IH. assumption.
Qed.

Lemma argmin_from_range (l : list npfloat) :
  forall best_i best i,
    (best_i < i)%nat ->
    (argmin_from best_i best i l < i + List.length l)%nat.
Proof.
  induction l as [|a t IH]; intros best_i best i Hlt; simpl; [lia|].
  destruct a as [v|]; [|lia].
  destruct (Rlt_dec v best).
  - specialize (IH i v (S i) ltac:(lia)). lia.
  - specialize (IH best_i best (S i) ltac:(lia)). lia.
Qed.

Lemma argmin_lt (l : list npfloat) (k : nat) :
  argmin l = Ok k -> (k < List.length l)%nat.
Proof.
  destruct l as [|[v|] t]; simpl; intros H; [discriminate | |].
  - injection H as <-.
    pose proof (@argmin_from_range t 0%nat v 1%nat ltac:(lia)). lia.
  - injection H as <-. lia.
Qed.

Lemma argmin_from_finite (l : list npfloat) :
  Forall finite l ->
  forall best_i best i,
    argmin_from best_i best i l = nanargmin_from best_i best i l.
Proof.
  induction 1 as [|a t [u ->] _ IH]; intros best_i best i; simpl;
    [reflexivity|].
  destruct (Rlt_dec u best); apply IH.
Qed.

(** Without NaN, [argmin] and [np.nanargmin] agree. *)
Lemma argmin_finite (l : list npfloat) :
  Forall finite l -> argmin l = nanargmin l.
Proof.
  intros H. destruct H as [|a t [u ->] Ht]; [reflexivity|].
  unfold nanargmin. simpl. f_equal. apply argmin_from_finite. assumption.
Qed.

(** What the pick of a single-path collection returns after a hit. *)
Lemma scatter_pick_spec (c : PathCollection) (event : Event)
      (ind : list nat) (sel : Selection) :
  pc_contains c event = (true, ind) -> pc_paths c = 1%nat ->
  compute_pick (APathCollection c) event = ([], Ok (Some sel)) ->
  exists offsets pos k,
    take (get_offsets c) ind = Ok offsets
    /\ argmin (map (fun p => sumsq (psub (transData (pc_axes c) p)
                                         (event_xy event))) offsets)
       = Ok pos
    /\ nth_error offsets pos = Some (coords (target sel))
    /\ nth_error ind pos = Some k
    /\ nth_error (get_offsets c) k = Some (coords (target sel))
    /\ sel = mkSelection (APathCollection c)
               (AttrArray (coords (target sel))
                          (Some (IntIndex (Z.of_nat k))))
               (fsqrt (sumsq (psub (transData (pc_axes c)
                                              (coords (target sel)))
                                   (event_xy event))))
               None None.
Proof.
  intros Hc Hp. unfold compute_pick, compute_pick_PathCollection.
  rewrite Hc, Hp. cbn [negb Nat.eqb].
  intros H. injection H as H.
  destruct (take (get_offsets c) ind) as [offsets|e] eqn:Ht; [|discriminate].
  cbn [bind] in H.
  destruct (argmin _) as [pos|e] eqn:Ha; [|discriminate].
  cbn [bind] in H. injection H as <-. cbn [target coords].
  pose proof (argmin_lt _ Ha) as Hlt. rewrite length_map in Hlt.
  destruct (nth_error offsets pos) as [v|] eqn:Hv;
    [|apply nth_error_None in Hv; lia].
  destruct (Forall2_nth_error (take_spec _ _ Ht) _ Hv) as [k [Hk Hkv]].
  rewrite (nth_error_nth _ _ nan_point Hv).
  rewrite (nth_error_nth _ _ 0%nat Hk).
  exists offsets, pos, k.
  split; [reflexivity|]. split; [exact Ha|]. split; [exact Hv|].
  split; [exact Hk|]. split; [exact Hkv|].
  f_equal. f_equal.
  apply (nth_error_nth _ _ NaN).
  rewrite nth_error_map, Hv. reflexivity.
Qed.

(** X22: after a hit on a single-path collection, the selection returned
    is one of the points the host reported: its index is one of the
    indices of [info["ind"]] and its target is the offset at that index.
    No pick radius is applied: the host's containment test alone decides
    that there is a match. *)
Theorem scatter_pick_among_host_candidates (c : PathCollection)
        (event : Event) (ind : list nat) (sel : Selection) :
  pc_contains c event = (true, ind) -> pc_paths c = 1%nat ->
  compute_pick (APathCollection c) event = ([], Ok (Some sel)) ->
  exists k,
    In k ind
    /\ index (target sel) = Some (IntIndex (Z.of_nat k))
    /\ nth_error (get_offsets c) k = Some (coords (target sel))
    /\ artist sel = APathCollection c.
Proof.
  intros Hc Hp H.
  destruct (scatter_pick_spec _ _ Hc Hp H)
    as [offsets [pos [k [_ [_ [_ [Hk [Hkv E]]]]]]]].
  exists k. split; [apply (nth_error_In _ _ Hk)|].
  rewrite E. cbn [target index coords artist].
  split; [reflexivity|]. split; [|reflexivity].
  rewrite E in Hkv. exact Hkv.
Qed.

Lemma scatter_pick_returns (c : PathCollection) (event : Event)
      (ind : list nat) (p : point) (rest : list point) :
  pc_contains c event = (true, ind) -> pc_paths c = 1%nat ->
  take (get_offsets c) ind = Ok (p :: rest) ->
  exists sel, compute_pick (APathCollection c) event = ([], Ok (Some sel)).
Proof.
  intros Hc Hp Ht. unfold compute_pick, compute_pick_PathCollection.
  rewrite Hc, Hp, Ht. cbn [negb Nat.eqb bind map].
  destruct (argmin _) as [pos|e] eqn:Ha.
  - eexists. reflexivity.
  - exfalso. simpl in Ha. destruct (sumsq _); discriminate.
Qed.

Lemma scatter_pick_among_host_candidates_witness :
  exists sel k,
    compute_pick (APathCollection scatter_hit) origin_event
    = ([], Ok (Some sel))
    /\ In k [0%nat; 1%nat]
    /\ index (target sel) = Some (IntIndex (Z.of_nat k))
    /\ nth_error (get_offsets scatter_hit) k = Some (coords (target sel))
    /\ artist sel = APathCollection scatter_hit.
Proof.
  destruct (@scatter_pick_returns scatter_hit origin_event [0%nat; 1%nat]
                                  (pt 3 4) [pt 0 1]
                                  eq_refl eq_refl eq_refl) as [sel Hsel].
  exists sel.
  destruct (@scatter_pick_among_host_candidates
              scatter_hit origin_event [0%nat; 1%nat] sel
              eq_refl eq_refl Hsel) as [k H].
  exists k. split; [exact Hsel | exact H].
Defined.

Lemma Forall2_nth_error_l (A B : Type) (P : A -> B -> Prop)
      (la : list A) (lb : list B) :
  Forall2 P la lb ->
  forall k a, nth_error la k = Some a ->
              exists b, nth_error lb k = Some b /\ P a b.
Proof.
  induction 1 as [|a b la lb Hab _ IH]; intros k v Hk.
  - destruct k; discriminate.
  - destruct k as [|k]; simpl in Hk.
    + injection Hk as <-. exists b. split; [reflexivity | assumption].
    + apply IH. assumption.
Qed.

(** X23: when the screen positions of all the points reported by the host
    are finite, the pick of a single-path collection returns the reported
    point nearest to the event, with its Euclidean distance. *)
Theorem scatter_pick_is_nearest_candidate (c : PathCollection)
        (event : Event) (ind : list nat) (sel : Selection) :
  pc_contains c event = (true, ind) -> pc_paths c = 1%nat ->
  (forall k p, In k ind -> nth_error (get_offsets c) k = Some p ->
               exists a b, transData (pc_axes c) p = (Fin a, Fin b)) ->
  compute_pick (APathCollection c) event = ([], Ok (Some sel)) ->
  exists a b,
    transData (pc_axes c) (coords (target sel)) = (Fin a, Fin b)
    /\ dist sel = Fin (euclid a b (ev_x event) (ev_y event))
    /\ forall k p a' b',
        In k ind -> nth_error (get_offsets c) k = Some p ->
        transData (pc_axes c) p = (Fin a', Fin b') ->
        euclid a b (ev_x event) (ev_y event)
        <= euclid a' b' (ev_x event) (ev_y event).
Proof.
  intros Hc Hp Hfin H.
  destruct (scatter_pick_spec _ _ Hc Hp H)
    as [offsets [pos [k [Ht [Ha [Hv [Hk [Hkv E]]]]]]]].
  pose proof (take_spec _ _ Ht) as F2.
  assert (Hall : Forall finite
                   (map (fun p => sumsq (psub (transData (pc_axes c) p)
                                              (event_xy event))) offsets)).
  { apply Forall_forall. intros x Hx. apply in_map_iff in Hx.
    destruct Hx as [p [<- Hin]].
    destruct (In_nth_error _ _ Hin) as [j Hj].
    destruct (Forall2_nth_error F2 _ Hj) as [i [Hi Hip]].
    destruct (Hfin i p (nth_error_In _ _ Hi) Hip) as [a [b ->]].
    eexists. reflexivity. }
  rewrite (argmin_finite Hall) in Ha.
  match type of Ha with nanargmin ?d = _ =>
    pose proof (nanargmin_spec d) as S end.
  rewrite Ha in S. destruct S as [v [Hv' Hmin]].
  rewrite nth_error_map, Hv in Hv'. cbn [option_map] in Hv'.
  injection Hv' as Hv'.
  destruct (Hfin k _ (nth_error_In _ _ Hk) Hkv) as [a [b Hab]].
  exists a, b. split; [exact Hab|].
  rewrite Hab in Hv'. unfold event_xy in Hv'.
  rewrite sumsq_psub_Fin in Hv'. apply Fin_inj in Hv'.
  split.
  - rewrite E. cbn [dist target coords]. rewrite Hab. unfold event_xy.
    rewrite sumsq_psub_Fin. rewrite fsqrt_Fin by apply squares_nonneg.
    reflexivity.
  - intros k' p a' b' Hin Hp' Hab'. unfold euclid. rewrite Hv'.
    apply sqrt_le_1_alt.
    destruct (In_nth_error _ _ Hin) as [j Hj].
    destruct (Forall2_nth_error_l F2 _ Hj) as [p'' [Hj' Hp'']].
    assert (p'' = p) by congruence. subst p''.
    apply (Hmin j). rewrite nth_error_map, Hj'. cbn [option_map].
    rewrite Hab'. unfold event_xy. rewrite sumsq_psub_Fin. reflexivity.
Qed.

Lemma scatter_pick_is_nearest_candidate_witness :
  exists sel a b,
    compute_pick (APathCollection scatter_hit) origin_event
    = ([], Ok (Some sel))
    /\ transData (pc_axes scatter_hit) (coords (target sel)) = (Fin a, Fin b)
    /\ dist sel
       = Fin (euclid a b (ev_x origin_event) (ev_y origin_event))
    /\ forall k p a' b',
        In k [0%nat; 1%nat] ->
        nth_error (get_offsets scatter_hit) k = Some p ->
        transData (pc_axes scatter_hit) p = (Fin a', Fin b') ->
        euclid a b (ev_x origin_event) (ev_y origin_event)
        <= euclid a' b' (ev_x origin_event) (ev_y origin_event).
Proof.
  destruct (@scatter_pick_returns scatter_hit origin_event [0%nat; 1%nat]
                                  (pt 3 4) [pt 0 1]
                                  eq_refl eq_refl eq_refl) as [sel Hsel].
  exists sel.
  destruct (@scatter_pick_is_nearest_candidate
              scatter_hit origin_event [0%nat; 1%nat] sel
              eq_refl eq_refl) as [a [b H]].
  - intros k p Hin Hk. simpl in Hin.
    destruct Hin as [<- | [<- | []]]; simpl in Hk; injection Hk as <-;
      eexists; eexists; reflexivity.
  - exact Hsel.
  - exists a, b. split; [exact Hsel | exact H].
Defined.

(** ** The annotation text *)

Lemma sub_padding_skipping_start (s : string) :
  starts_with_space (sub_padding true s) = false.
Proof.
  induction s as [|c t IH]; [reflexivity|]. simpl.
  destruct (Ascii.eqb_spec c space) as [->|Hc]; [exact IH|].
  destruct (is_sep c && starts_with_space t); simpl; [reflexivity|].
  apply Ascii.eqb_neq. assumption.
Qed.

Lemma sub_padding_start (s : string) :
  starts_with_space s = false ->
  starts_with_space (sub_padding false s) = false.
Proof.
  destruct s as [|c t]; [reflexivity|]. simpl. intros H.
  destruct (is_sep c && starts_with_space t); simpl;
    [reflexivity | assumption].
Qed.

Lemma sub_padding_clean (s : string) :
  forall skipping, has_padding (sub_padding skipping s) = false.
Proof.
  induction s as [|c t IH]; intros skipping; [reflexivity|]. simpl.
  destruct (skipping && Ascii.eqb c space); [apply IH|].
  destruct (is_sep c && starts_with_space t) eqn:Hm; simpl.
  - rewrite IH. reflexivity.
  - rewrite IH, orb_false_r.
    destruct (is_sep c); [|reflexivity].
    simpl in Hm. simpl. apply sub_padding_start. assumption.
Qed.

Lemma sub_padding_fixed (s : string) :
  has_padding s = false -> sub_padding false s = s.
Proof.
  induction s as [|c t IH]; [reflexivity|]. simpl. intros H.
  apply orb_false_elim in H. destruct H as [H1 H2].
  rewrite H1, IH by assumption. reflexivity.
Qed.

Lemma lstrip_suffix_clean (s : string) :
  has_padding s = false -> has_padding (lstrip s) = false.
Proof.
  induction s as [|c t IH]; [reflexivity|]. intros H.
  cbn [lstrip]. destruct (is_space c); [|assumption].
  apply IH. simpl in H. apply orb_false_elim in H. tauto.
Qed.

Lemma lstrip_start (s : string) : starts_with_whitespace (lstrip s) = false.
Proof.
  induction s as [|c t IH]; [reflexivity|]. cbn [lstrip].
  destruct (is_space c) eqn:Hc; [exact IH|]. simpl. assumption.
Qed.

Lemma rstrip_head (s : string) (a : Ascii.ascii) (r : string) :
  rstrip s = String a r -> exists t, s = String a t.
Proof.
  destruct s as [|c t]; [discriminate|]. simpl.
  destruct (rstrip t); [destruct (is_space c); [discriminate|]|];
    intros H; injection H as <- _; eexists; reflexivity.
Qed.

Lemma rstrip_prefix_clean (s : string) :
  has_padding s = false -> has_padding (rstrip s) = false.
Proof.
  induction s as [|c t IH]; [reflexivity|]. intros H.
  simpl in H. apply orb_false_elim in H. destruct H as [H1 H2].
  specialize (IH H2). cbn [rstrip].
  destruct (rstrip t) as [|a r] eqn:Hr.
  - destruct (is_space c); [reflexivity|]. simpl.
    rewrite andb_false_r. reflexivity.
  - destruct (rstrip_head _ Hr) as [t' ->].
    cbn [has_padding starts_with_space] in *. rewrite H1. exact IH.
Qed.

Lemma rstrip_start (s : string) :
  starts_with_whitespace s = false ->
  starts_with_whitespace (rstrip s) = false.
Proof.
  destruct s as [|c t]; [reflexivity|]. simpl. intros H.
  destruct (rstrip t); [rewrite H|]; simpl; try assumption.
Qed.

Lemma rstrip_end (s : string) : ends_with_whitespace (rstrip s) = false.
Proof.
  induction s as [|c t IH]; [reflexivity|]. cbn [rstrip].
  destruct (rstrip t) as [|a r] eqn:Hr.
  - destruct (is_space c) eqn:Hc; [reflexivity|]. simpl. assumption.
  - exact IH.
Qed.

(** X24: the coordinate text of an annotation has no padded field left
    (the pattern ["[ ,] +"] matches nowhere in it, so the substitution is
    idempotent) and neither starts nor ends with whitespace, whatever the
    host's [format_coord] returns. *)
Theorem coord_text_is_clean (h : TextHost) (sel : Selection) :
  has_padding (coord_text h sel) = false
  /\ re_sub_padding (coord_text h sel) = coord_text h sel
  /\ starts_with_whitespace (coord_text h sel) = false
  /\ ends_with_whitespace (coord_text h sel) = false.
Proof.
  unfold coord_text. destruct (coords (target sel)) as [x y].
  set (raw := format_coord h (artist sel) x y).
  assert (Hclean : has_padding (strip (re_sub_padding raw)) = false).
  { unfold strip, re_sub_padding.
    apply rstrip_prefix_clean, lstrip_suffix_clean, sub_padding_clean. }
  split; [exact Hclean|].
  split; [apply sub_padding_fixed; exact Hclean|].
  split.
  - unfold strip. apply rstrip_start, lstrip_start.
  - unfold strip. apply rstrip_end.
Qed.

(** X25: for a line, a point collection or a patch, a label that is
    missing, empty or starts with an underscore is left out of the
    annotation text; any other label is put on a line of its own before
    the coordinates; no diagnostic is emitted. *)
Theorem annotation_label_rule (h : TextHost) (sel : Selection) :
  (exists l, artist sel = ALine2D l)
  \/ (exists c, artist sel = APathCollection c)
  \/ (exists p, artist sel = APatch p) ->
  match get_label h (artist sel) with
  | Some (String c rest) =>
      if Ascii.eqb c underscore
      then get_ann_text h sel = ([], coord_text h sel)
      else get_ann_text h sel
           = ([], (String c rest ++ String newline (coord_text h sel))
                    %string)
  | _ => get_ann_text h sel = ([], coord_text h sel)
  end.
Proof.
  intros Hkind.
  assert (E : get_ann_text h sel = ([], get_ann_text_labelled h sel)).
  { unfold get_ann_text.
    destruct Hkind as [[l ->] | [[c ->] | [p ->]]]; reflexivity. }
  rewrite E. unfold get_ann_text_labelled.
  destruct (get_label h (artist sel)) as [[|c rest]|]; try reflexivity.
  unfold re_match_public.
  destruct (Ascii.eqb c underscore); reflexivity.
Qed.

Lemma annotation_label_rule_witness :
  get_ann_text padded_host (single_marker_selection 6)
  = ([], coord_text padded_host (single_marker_selection 6)).
Proof.
  apply (@annotation_label_rule padded_host (single_marker_selection 6)).
  left. eexists. reflexivity.
Defined.

(** The padded output of [format_coord] becomes one field per line. *)
Lemma coord_text_example :
  coord_text padded_host (single_marker_selection 6)
  = String.append "x=1.5" (String newline "y=2.25").
Proof. reflexivity. Qed.

(** ** When the line pick raises *)

Lemma nanargmin_raises (l : list npfloat) (e : exn) :
  nanargmin l = Raise e -> e = ValueError /\ Forall (fun a => a = NaN) l.
Proof.
  intros H. pose proof (nanargmin_spec l) as S. rewrite H in S. exact S.
Qed.

(** X26: the pick of a line raises exactly when a branch that is enabled
    finds no finite distance (visible markers and no vertex with a finite
    distance, or a visible line of at least two points and no segment with
    a finite distance); the exception is then [ValueError], and in every
    other case the pick returns. *)
Theorem line_pick_raises_exactly (l : Line2D) (event : Event) :
  let marker_d2s :=
    map (fun p => sumsq (psub (event_xy event) p))
        (map (transform (get_transform l)) (get_xydata l)) in
  let line_d2s :=
    map seg_d2s (segments (event_xy event) (line_artist_xys l)) in
  let marker_fails :=
    style_visible (get_marker l) = true
    /\ Forall (fun a => a = NaN) marker_d2s in
  let line_fails :=
    style_visible (get_linestyle l) = true
    /\ (2 <= List.length (get_xydata l))%nat
    /\ Forall (fun a => a = NaN) line_d2s in
  (marker_fails \/ line_fails ->
   compute_pick (ALine2D l) event = ([], Raise ValueError))
  /\ (~ (marker_fails \/ line_fails) ->
      exists r, compute_pick (ALine2D l) event = ([], Ok r)).
Proof.
  intros marker_d2s line_d2s marker_fails line_fails.
  assert (Hm : marker_candidate l event
               = (k <- nanargmin marker_d2s ;;
                  Ok (mkSelection (ALine2D l)
                        (AttrArray (nth k (get_xydata l) nan_point)
                                   (Some (IntIndex (Z.of_nat k))))
                        (fsqrt (nth k marker_d2s NaN)) None None)))
    by reflexivity.
  assert (Hl : forall e, nanargmin line_d2s = Raise e ->
                         line_candidate l event = Raise e).
  { intros e He. unfold line_candidate. cbv zeta. fold line_d2s.
    rewrite He. reflexivity. }
  assert (Hl' : forall k, nanargmin line_d2s = Ok k ->
                          exists s, line_candidate l event = Ok s).
  { intros k Hk. unfold line_candidate. cbv zeta. fold line_d2s.
    rewrite Hk. cbn [bind]. eexists. reflexivity. }
  assert (Hlen : (1 <? List.length (get_xydata l))%nat = true
                 <-> (2 <= List.length (get_xydata l))%nat).
  { rewrite Nat.ltb_lt. lia. }
  unfold compute_pick, compute_pick_Line2D, candidates.
  split.
  - intros [[Hv Hnan] | [Hv [Hn Hnan]]].
    + rewrite Hv, Hm, (nanargmin_all_nan Hnan). reflexivity.
    + apply Hlen in Hn. rewrite Hv, Hn. cbn [andb].
      rewrite (Hl _ (nanargmin_all_nan Hnan)).
      destruct (style_visible (get_marker l)); [|reflexivity].
      rewrite Hm.
      destruct (nanargmin marker_d2s) as [k|e'] eqn:Hk; [reflexivity|].
      destruct (nanargmin_raises _ Hk) as [-> _]. reflexivity.
  - intros Hno.
    assert (M : style_visible (get_marker l) = true ->
                exists s, marker_candidate l event = Ok s).
    { intros Hv. rewrite Hm.
      destruct (nanargmin marker_d2s) as [k|e] eqn:Hk.
      - cbn [bind]. eexists. reflexivity.
      - exfalso. apply Hno. left. split; [assumption|].
        apply (nanargmin_raises _ Hk). }
    assert (L : style_visible (get_linestyle l)
                && (1 <? List.length (get_xydata l))%nat = true ->
                exists s, line_candidate l event = Ok s).
    { intros Hv. apply andb_true_iff in Hv. destruct Hv as [Hv Hn].
      destruct (nanargmin line_d2s) as [k|e] eqn:Hk.
      - eapply Hl'. first [exact Hk | reflexivity].
      - exfalso. apply Hno. right. split; [assumption|].
        split; [apply Hlen; assumption|].
        apply (nanargmin_raises _ Hk). }
    destruct (style_visible (get_marker l)).
    + destruct (M eq_refl) as [s1 ->]. cbn [bind].
      destruct (style_visible (get_linestyle l)
                && (1 <? List.length (get_xydata l))%nat)%bool.
      * destruct (L eq_refl) as [s2 ->]. cbn [bind]. eexists. reflexivity.
      * cbn [bind]. eexists. reflexivity.
    + cbn [bind].
      destruct (style_visible (get_linestyle l)
                && (1 <? List.length (get_xydata l))%nat)%bool.
      * destruct (L eq_refl) as [s2 ->]. cbn [bind]. eexists. reflexivity.
      * cbn [bind]. eexists. reflexivity.
Qed.

Lemma line_pick_raises_exactly_witness :
  compute_pick (ALine2D nan_line) origin_event = ([], Raise ValueError)
  /\ exists r,
      compute_pick (ALine2D (single_marker 6)) origin_event = ([], Ok r).
Proof.
  split.
  - apply (proj1 (line_pick_raises_exactly nan_line origin_event)).
    left. split; [reflexivity|]. repeat constructor.
  - apply (proj2 (line_pick_raises_exactly (single_marker 6) origin_event)).
    intros [[_ H] | [H _]].
    + inversion H as [|? ? H1 _]. discriminate.
    + discriminate.
Defined.
